(** * rikki: the analyzer job (analyzer.go)

    A shallow embedding of [NewAnalyzer] and [Analyzer.process] together
    with the parts of the Go standard library they rely on (package
    [strings], [path/filepath], [math/rand]), and the properties of the
    job pipeline proved over it. *)

From Stdlib Require Import Strings.String Strings.Ascii Strings.Byte.
From stdpp Require Import base option list gmap strings.

Set Warnings "-register-all".
Open Scope string_scope.
Open Scope list_scope.
Open Scope nat_scope.

(** ** Package [strings] *)

Module Strings.

(** [strings.Join(elems, sep)]. *)
Fixpoint Join (elems : list string) (sep : string) : string :=
  match elems with
  | [] => ""
  | [e] => e
  | e :: rest => e +:+ sep +:+ Join rest sep
  end.

(** Membership of a byte in a cutset. *)
Fixpoint contains_byte (cutset : string) (c : ascii) : bool :=
  match cutset with
  | EmptyString => false
  | String d rest => if Ascii.eqb c d then true else contains_byte rest c
  end.

(** [strings.TrimLeft(s, cutset)]: drop the leading bytes of [s] that
    occur in [cutset]. *)
Fixpoint TrimLeft (s cutset : string) : string :=
  match s with
  | EmptyString => EmptyString
  | String c rest =>
      if contains_byte cutset c then TrimLeft rest cutset else s
  end.

(** A [strings.Replacer] built by [strings.NewReplacer(old1, new1, old2,
    new2, ...)], kept as its list of (old, new) pairs in argument order.
    All the [old] strings the analyzer passes are non-empty; an empty
    [old] never matches in this model. *)
Definition Replacer := list (string * string).

(** The pair that applies at the head of [s]: comparisons are done in
    argument order, so the first pair whose [old] is a prefix wins. *)
Fixpoint lookup_pair (r : Replacer) (s : string) : option (string * string) :=
  match r with
  | [] => None
  | (old, new) :: rest =>
      if (0 <? String.length old)%nat && String.prefix old s
      then Some (old, new)
      else lookup_pair rest s
  end.

(** Left-to-right scan without overlapping matches.  [skip] counts the
    bytes of the current match that remain to be consumed. *)
Fixpoint replace_from (r : Replacer) (skip : nat) (s : string) : string :=
  match s with
  | EmptyString => EmptyString
  | String c rest =>
      match skip with
      | S k => replace_from r k rest
      | O =>
          match lookup_pair r s with
          | Some (old, new) =>
              new +:+ replace_from r (String.length old - 1)%nat rest
          | None => String c (replace_from r 0 rest)
          end
      end
  end.

(** [r.Replace(s)]. *)
Definition Replace (r : Replacer) (s : string) : string :=
  replace_from r 0 s.

End Strings.

(** ** Package [path/filepath] (Unix: the separator is [/], no volume names) *)

Module Filepath.

Definition Separator : ascii := "/"%char.

(** The elements of a path: the pieces between separators, empty pieces
    included. *)
Fixpoint elements (path : string) : list string :=
  match path with
  | EmptyString => [EmptyString]
  | String c rest =>
      if Ascii.eqb c Separator then EmptyString :: elements rest
      else
        match elements rest with
        | e :: es => String c e :: es
        | [] => [String c EmptyString]
        end
  end.

Definition rooted (path : string) : bool :=
  match path with
  | String c _ => Ascii.eqb c Separator
  | EmptyString => false
  end.

(** One iteration of the loop of [Clean] over the next path element.  The
    output buffer is kept as the stack of elements written so far, the
    last one first.  Empty and [.] elements are dropped; a [..] removes
    the last real element when there is one, is kept in front of a path
    that is not rooted, and is dropped at the root. *)
Definition clean_step (is_rooted : bool) (out : list string) (elem : string)
  : list string :=
  if String.eqb elem "" then out
  else if String.eqb elem "." then out
  else if String.eqb elem ".." then
    match out with
    | last :: before =>
        if String.eqb last ".."
        then (if is_rooted then out else ".." :: out)
        else before
    | [] => if is_rooted then out else [".."]
    end
  else elem :: out.

(** The output buffer of [Clean] at the end of its loop. *)
Definition out_elements (path : string) : list string :=
  foldl (clean_step (rooted path)) [] (elements path).

(** The string in the buffer: the elements written, separated, after the
    leading separator of a rooted path; [.] for an empty buffer. *)
Definition render (is_rooted : bool) (out : list string) : string :=
  let body := Strings.Join (rev out) "/" in
  if is_rooted then "/" +:+ body
  else if String.eqb body "" then "." else body.

(** [filepath.Clean(path)]. *)
Definition Clean (path : string) : string :=
  if String.eqb path "" then "."
  else render (rooted path) (out_elements path).

(** [filepath.Join(elem...)]: the elements from the first non-empty one
    on are joined with separators and the result is cleaned; all empty
    elements give the empty string. *)
Fixpoint Join (elem : list string) : string :=
  match elem with
  | [] => ""
  | e :: rest =>
      if String.eqb e "" then Join rest
      else Clean (Strings.Join elem "/")
  end.

End Filepath.

Arguments Filepath.Join : simpl never.
Arguments Filepath.Clean : simpl never.

(** ** Package [math/rand] *)

Module Rand.

(** The random source, as the stream of raw samples it hands out: sample
    [k] is the one consumed by the [k]-th call of the job. *)
Definition Source := nat → nat.

(** [rand.Intn(n)] for [0 < n]: the sample reduced modulo [n], a value in
    [[0, n)]. *)
Definition Intn (src : Source) (k n : nat) : nat := src k `mod` n.

End Rand.

(** ** The queue message (go-workers, simplejson) *)

Module Workers.

(** A decoded JSON value. *)
Inductive Json :=
| JNull
| JBool (b : bool)
| JNumber (literal : string)
| JString (s : string)
| JArray (items : list Json)
| JObject (fields : list (string * Json)).

(** [j.GetIndex(index)]: the element of an array, or the null value when
    [j] is not an array or is too short. *)
Definition GetIndex (j : Json) (index : nat) : Json :=
  match j with
  | JArray items => default JNull (items !! index)
  | _ => JNull
  end.

(** [j.String()]: succeeds only on a JSON string. *)
Definition String (j : Json) : string + string :=
  match j with
  | JString s => inr s
  | _ => inl "type assertion to string failed"
  end.

(** A message; [Args] is the value of [msg.Args()], the message's argument
    list (the empty array when the message has none). *)
Record Msg := { Args : Json }.

End Workers.

(** ** The file tree under the corpus root and [filepath.Walk] *)

(** An error value, kept as its message. *)
Definition error := string.

Record FileInfo := { IsDir : bool }.

(** What [Lstat] finds at a path: a regular file, or a directory with its
    entries in the (lexical) order in which [Walk] visits them. *)
Inductive node :=
| File
| Dir (entries : list (string * node)).

Section Walk.

Context {S : Type}.
Variable walkFn : string → FileInfo → S → error + S.

(** [filepath.Walk]'s recursion over a tree every entry of which can be
    stat'ed: [walkFn] is called on each file and directory, a directory
    before its entries, and the walk stops at the first error [walkFn]
    returns (the closure of [NewAnalyzer] never answers [SkipDir]).  [S]
    is the state the closure [walkFn] updates. *)
Fixpoint walk (path : string) (n : node) (s : S) {struct n} : error + S :=
  match n with
  | File => walkFn path {| IsDir := false |} s
  | Dir entries =>
      match walkFn path {| IsDir := true |} s with
      | inl err => inl err
      | inr s1 =>
          (fix each (es : list (string * node)) (s : S) : error + S :=
             match es with
             | [] => inr s
             | (name, child) :: rest =>
                 match walk (Filepath.Join [path; name]) child s with
                 | inl err => inl err
                 | inr s2 => each rest s2
                 end
             end) entries s1
      end
  end.

Definition Walk (root : string) (tree : node) (s : S) : error + S :=
  walk root tree s.

End Walk.

(** ** The analyzer *)

(** Modelled from the spec: the submission type returned by
    [Exercism.FetchSolution] is declared outside analyzer.go; the spec gives
    it a track identifier and files with a name and a content each.
    [process] ranges over the files with [for _, source := range] and
    appends each value as a string: the files are a Go map from file names
    to contents, which has no order of its own. *)
Record Solution := {
  TrackID : string;
  Files : gmap string string;
}.

(** Modelled from the spec: the platform client, declared outside
    analyzer.go, by the answers of the two operations [process] calls. *)
Record Exercism := {
  FetchSolution : string → error + Solution;
  SubmitComment : list byte → string → option error;
}.

Record Analyzer := {
  exercism : Exercism;
  analysseurHost : string;
  comments : gmap string (list byte);
}.

(** Modelled from the spec: the helper [read] is declared outside
    analyzer.go; it returns the raw content of the file at a path, or an
    I/O error.  The disk as [NewAnalyzer] sees it is that helper together
    with the tree found at the corpus root. *)
Record Disk := {
  tree : node;
  read : string → error + list byte;
}.

(** The key of a comment file: every occurrence of the root directory and
    of [.md] is deleted from the path, then leading separators are trimmed. *)
Definition comment_key (dir path : string) : string :=
  let r : Strings.Replacer := [(dir, ""); (".md", "")] in
  let key := Strings.Replace r path in
  Strings.TrimLeft key "/".

(** The closure [fn] of [NewAnalyzer]; the state is the [comments] map it
    fills. *)
Definition fn (disk : Disk) (dir : string) (path : string) (info : FileInfo)
    (comments : gmap string (list byte)) : error + gmap string (list byte) :=
  if IsDir info then inr comments
  else
    match read disk path with
    | inl err => inl err
    | inr b => inr (<[comment_key dir path := b]> comments)
    end.

Definition NewAnalyzer (disk : Disk) (exercism : Exercism)
    (analysseur dir : string) : error + Analyzer :=
  let dir := Filepath.Join [dir; "analyzer"; "ruby"] in
  match Walk (fn disk dir) dir (tree disk) ∅ with
  | inl err => inl err
  | inr comments =>
      inr {| exercism := exercism;
             analysseurHost := analysseur;
             comments := comments |}
  end.

Record analysisResult := {
  Type_ : string;
  Keys : list string;
}.

Record analysisPayload := {
  Results : list analysisResult;
  Error : string;
}.

(** *** The world outside the job *)

Record Request := {
  Method : string;
  URL : string;
  Payload : list byte;
}.

(** An HTTP response: its status code and what [ioutil.ReadAll] makes of
    its body. *)
Record Response := {
  StatusCode : Z;
  Body : error + list byte;
}.

(** The answers of the libraries and services [process] talks to. *)
Record World := {
  (** [json.Marshal] of the request structure whose [code] field is given *)
  json_Marshal : string → error + list byte;
  (** the error of parsing a URL, if any ([http.NewRequest]) *)
  url_error : string → option error;
  (** [http.DefaultClient.Do] *)
  http_Do : Request → error + Response;
  (** [json.Unmarshal] into an [analysisPayload] *)
  json_Unmarshal : list byte → error + analysisPayload;
  (** the default source of [math/rand] *)
  rand_source : Rand.Source;
  (** the draws by which the runtime picks the order of a [range] over a
      map *)
  range_seed : Rand.Source;
}.

Definition http_NewRequest (w : World) (method url : string)
    (body : list byte) : error + Request :=
  match url_error w url with
  | Some err => inl err
  | None => inr {| Method := method; URL := url; Payload := body |}
  end.

Definition StatusOK : Z := 200.

(** *** What a job does: the trace of its calls and log lines *)

Inductive logger := lgr | sanity.

Inductive arg :=
| AStr (s : string)
| AInt (n : Z).

Inductive event :=
| Printf (l : logger) (format : string) (args : list arg)
| CallFetchSolution (uuid : string)
| CallDo (req : Request)
| CallSubmitComment (comment : list byte) (uuid : string).

(** A job step: the events it produced, and its result unless the job has
    returned. *)
Definition job (A : Type) : Type := list event * option A.

Definition ret {A} (x : A) : job A := ([], Some x).

Definition bind {A B} (m : job A) (k : A → job B) : job B :=
  match m with
  | (t, None) => (t, None)
  | (t, Some x) => let (t', r) := k x in (t ++ t', r)
  end.

Notation "'do' x <- m ; k" := (bind m (λ x, k))
  (at level 10, x name, m at level 100, k at level 200).
Notation "m ;; k" := (bind m (λ _, k))
  (at level 100, k at level 200, right associativity).

(** A plain [return] out of [process]. *)
Definition stop {A} : job A := ([], None).

Definition emit (e : event) : job unit := ([e], Some tt).

Definition logf (l : logger) (format : string) (args : list arg) : job unit :=
  emit (Printf l format args).

(** [x, err := r; if err != nil { handler; return }]. *)
Definition try {A} (r : error + A) (handler : error → job unit) : job A :=
  match r with
  | inl err => handler err ;; stop
  | inr x => ret x
  end.

Definition trace {A} (m : job A) : list event := fst m.

(** *** Selecting a comment *)

(** The smells of a payload, [filepath.Join(result.Type, key)] for each key
    of each result, in encounter order. *)
Definition flatten (results : list analysisResult) : list string :=
  result ← results;
  key ← Keys result;
  [Filepath.Join [Type_ result; key]].

(** The line the [sanity] logger prints for each smell. *)
Definition sanity_lines (uuid : string) (results : list analysisResult)
    : list event :=
  result ← results;
  key ← Keys result;
  [Printf sanity "%s : %s - %s\n" [AStr uuid; AStr (Type_ result); AStr key]].

Section Shuffle.

Context {A : Type}.

(** [l[i], l[j] = l[j], l[i]].  Both indices are in range wherever the
    shuffle swaps (an index out of range would panic in Go), see
    [shuffle_draw_in_range]. *)
Definition swap (i j : nat) (l : list A) : list A :=
  match l !! i, l !! j with
  | Some x, Some y => <[j:=x]> (<[i:=y]> l)
  | _, _ => l
  end.

(** The body of the shuffle loop at index [i]. *)
Definition shuffle_step (src : Rand.Source) (smells : list A) (i : nat)
  : list A :=
  let j := Rand.Intn src i (i + 1) in
  swap i j smells.

(** [for i := range smells { j := rand.Intn(i + 1); swap }]. *)
Definition shuffle (src : Rand.Source) (smells : list A) : list A :=
  foldl (shuffle_step src) smells (seq 0 (length smells)).

(** The loop as the spec words it: [i] runs from the second element to
    the last. *)
Definition shuffle_from_second (src : Rand.Source) (smells : list A)
  : list A :=
  foldl (shuffle_step src) smells (seq 1 (length smells - 1)).

End Shuffle.

(** [for k, v := range m] over a map: Go does not specify the order in
    which the entries are visited, and the runtime varies it from one loop
    to the next.  The loop sees the entries in a rearrangement of the
    runtime's choosing, here the one its draws [seed] make of the entries;
    every rearrangement is the choice of some draws. *)
Definition map_range {V} (seed : Rand.Source) (m : gmap string V)
    : list (string * V) :=
  shuffle seed (map_to_list m).

(** [for _, smell := range smells { b := comments[smell]; if len(b) > 0 {
    comment = b; break } }]: a key that is missing reads as the nil slice. *)
Fixpoint first_comment (comments : gmap string (list byte))
    (smells : list string) : list byte :=
  match smells with
  | [] => []
  | smell :: rest =>
      let b := default [] (comments !! smell) in
      if (0 <? length b)%nat then b else first_comment comments rest
  end.

(** The comment [process] picks for a payload. *)
Definition select (comments : gmap string (list byte)) (src : Rand.Source)
    (results : list analysisResult) : list byte :=
  first_comment comments (shuffle src (flatten results)).

(** *** [process] *)

(** The Go string ["\n"]: one line feed.  (The format strings of the log
    lines are kept as they are written in the source.) *)
Definition line_break : string := String (ascii_of_nat 10) EmptyString.

(** Lines 72 to 135: from the queue message to the parsed answer of the
    analysis service. *)
Definition analyze (analyzer : Analyzer) (w : World) (msg : Workers.Msg)
    : job (string * analysisPayload) :=
  do uuid <- try (Workers.String (Workers.GetIndex (Workers.Args msg) 0))
    (λ err, logf lgr "unable to determine submission key - %s\n" [AStr err]);
  emit (CallFetchSolution uuid) ;;
  do solution <- try (FetchSolution (exercism analyzer) uuid)
    (λ err, logf lgr "%s\n" [AStr err]);
  if negb (String.eqb (TrackID solution) "ruby") then
    logf lgr "skipping - rikki- doesn't support %s\n"
      [AStr (TrackID solution)] ;;
    stop
  else
  let sources := snd <$> map_range (range_seed w) (Files solution) in
  let url := analysseurHost analyzer +:+ "/analyze/" +:+ TrackID solution in
  do codeBodyJSON <- try (json_Marshal w (Strings.Join sources line_break))
    (λ err, logf lgr "%s - %s\n" [AStr uuid; AStr err]);
  do req <- try (http_NewRequest w "POST" url codeBodyJSON)
    (λ err, logf lgr "%s - cannot prepare request to %s - %s\n"
              [AStr uuid; AStr url; AStr err]);
  emit (CallDo req) ;;
  do resp <- try (http_Do w req)
    (λ err, logf lgr "%s - request to %s failed - %s\n"
              [AStr uuid; AStr url; AStr err]);
  do body <- try (Body resp)
    (λ err, logf lgr "%s - failed to fetch submission - %s\n"
              [AStr uuid; AStr err]);
  if negb (StatusCode resp =? StatusOK)%Z then
    logf lgr "%s - %s responded with status %d - %s\n"
      [AStr uuid; AStr url; AInt (StatusCode resp);
       AStr (string_of_list_byte body)] ;;
    stop
  else
  do ap <- try (json_Unmarshal w body)
    (λ err, logf lgr "%s - %s\n" [AStr uuid; AStr err]);
  ret (uuid, ap).

(** Lines 137 to 181: from the parsed answer to the published comment. *)
Definition respond (analyzer : Analyzer) (w : World) (uuid : string)
    (ap : analysisPayload) : job unit :=
  if negb (String.eqb (Error ap) "") then
    logf lgr "analysis api is complaining about %s - %s\n"
      [AStr uuid; AStr (Error ap)] ;;
    stop
  else
  if (length (Results ap) =? 0)%nat then stop
  else
  (sanity_lines uuid (Results ap), Some tt) ;;
  let smells := flatten (Results ap) in
  let smells := shuffle (rand_source w) smells in
  let comment := first_comment (comments analyzer) smells in
  if (length comment =? 0)%nat then stop
  else
  emit (CallSubmitComment comment uuid) ;;
  match SubmitComment (exercism analyzer) comment uuid with
  | Some err => logf lgr "%s\n" [AStr err]
  | None => ret tt
  end.

Definition process (analyzer : Analyzer) (w : World) (msg : Workers.Msg)
    : job unit :=
  do parsed <- analyze analyzer w msg;
  respond analyzer w (fst parsed) (snd parsed).

(** ** Classifying the events of a job *)

Definition is_submit (e : event) : bool :=
  match e with CallSubmitComment _ _ => true | _ => false end.

Definition is_analysis (e : event) : bool :=
  match e with CallDo _ => true | _ => false end.

(** The calls that go over the network: fetch, analyze, publish. *)
Definition is_network_call (e : event) : bool :=
  match e with Printf _ _ _ => false | _ => true end.

(** The lines of the job's own logger, on which every failure is reported. *)
Definition is_report (e : event) : bool :=
  match e with Printf lgr _ _ => true | _ => false end.

(** The first argument of a message, when it has one. *)
Definition first_argument (msg : Workers.Msg) : option Workers.Json :=
  match Workers.Args msg with
  | Workers.JArray items => items !! 0
  | _ => None
  end.

Definition is_string (j : Workers.Json) : bool :=
  match j with Workers.JString _ => true | _ => false end.

(** ** Auxiliary notions used in the statements *)

(** The content of a smell: what [comments[smell]] reads. *)
Definition content (comments : gmap string (list byte)) (smell : string)
    : list byte :=
  default [] (comments !! smell).

Definition with_comments (analyzer : Analyzer)
    (c : gmap string (list byte)) : Analyzer :=
  {| exercism := exercism analyzer;
     analysseurHost := analysseurHost analyzer;
     comments := c |}.

(** What the publisher answers is logged when it is an error. *)
Definition publish_report (analyzer : Analyzer) (comment : list byte)
    (uuid : string) : list event :=
  match SubmitComment (exercism analyzer) comment uuid with
  | Some err => [Printf lgr "%s\n" [AStr err]]
  | None => []
  end.


(** ** A sample job: the end-to-end example of the design *)

Module Sample.

Definition bytes (s : string) : list byte := list_byte_of_string s.

Definition solution : Solution :=
  {| TrackID := "ruby"; Files := {[ "solution.src" := "code" ]} |}.

Definition platform : Exercism :=
  {| FetchSolution := λ _, inr solution;
     SubmitComment := λ _ _, None |}.

Definition advice : list byte :=
  bytes "Consider removing unused variables.".

Definition analyzer : Analyzer :=
  {| exercism := platform;
     analysseurHost := "http://analysseur";
     comments := {[ "smell/unused_variable" := advice ]} |}.

Definition payload : analysisPayload :=
  {| Results := [{| Type_ := "smell"; Keys := ["unused_variable"] |}];
     Error := "" |}.

(** A world whose analysis service answers [ap] to every request. *)
Definition world (ap : analysisPayload) : World :=
  {| json_Marshal := λ code, inr (bytes code);
     url_error := λ _, None;
     http_Do := λ _, inr {| StatusCode := 200; Body := inr [] |};
     json_Unmarshal := λ _, inr ap;
     rand_source := λ i, i;
     range_seed := λ i, i |}.

Definition msg : Workers.Msg :=
  {| Workers.Args := Workers.JArray [Workers.JString "abc123"] |}.

(** A message whose first argument is a number. *)
Definition bad_msg : Workers.Msg :=
  {| Workers.Args := Workers.JArray [Workers.JNumber "42"] |}.

(** A platform on which every submission is on the [go] track. *)
Definition go_platform : Exercism :=
  {| FetchSolution := λ _, inr {| TrackID := "go"; Files := ∅ |};
     SubmitComment := λ _ _, None |}.

Definition go_analyzer : Analyzer :=
  {| exercism := go_platform;
     analysseurHost := "http://analysseur";
     comments := ∅ |}.

Definition timeout_payload : analysisPayload :=
  {| Results := Results payload; Error := "timeout" |}.

End Sample.

(** ** A submission of two files *)

Module TwoFiles.

Definition solution : Solution :=
  {| TrackID := "ruby"; Files := {[ "a.rb" := "x"; "b.rb" := "y" ]} |}.

Definition platform : Exercism :=
  {| FetchSolution := λ _, inr solution;
     SubmitComment := λ _ _, None |}.

Definition analyzer : Analyzer :=
  {| exercism := platform;
     analysseurHost := "http://analysseur";
     comments := ∅ |}.

(** A world in which the runtime ranges over maps by the draws [seed]. *)
Definition world (seed : Rand.Source) : World :=
  {| json_Marshal := λ code, inr (Sample.bytes code);
     url_error := λ _, None;
     http_Do := λ _, inr {| StatusCode := 200; Body := inr [] |};
     json_Unmarshal := λ _, inr Sample.payload;
     rand_source := λ i, i;
     range_seed := seed |}.

(** The request that carries the blob [blob]. *)
Definition request (blob : list byte) : Request :=
  {| Method := "POST";
     URL := "http://analysseur/analyze/ruby";
     Payload := blob |}.

End TwoFiles.

(** ** Jobs that end without a comment *)

Module Quiet.

(** An analyzer whose corpus has no comment for the smell of the sample
    payload. *)
Definition analyzer : Analyzer :=
  {| exercism := Sample.platform;
     analysseurHost := "http://analysseur";
     comments := ∅ |}.

End Quiet.

(** ** The space of draws of a shuffle *)

(** The draws of a shuffle of [n] elements: one index [j] in [[0, i]] for
    each [i < n], in the order of the loop. *)
Fixpoint all_draws (n : nat) : list (list nat) :=
  match n with
  | 0 => [[]]
  | S k => d ← all_draws k; (λ j, d ++ [j]) <$> seq 0 (S k)
  end.

Definition valid_draws (n : nat) (d : list nat) : Prop :=
  length d = n ∧ ∀ i j, d !! i = Some j → j ≤ i.

(** The source that hands out the draws [d], one per iteration. *)
Definition source_of (d : list nat) : Rand.Source := λ i, nth i d 0.

(** The index a swap reads position [k] of its result from. *)
Definition swapped (i j k : nat) : nat :=
  if decide (k = j) then i else if decide (k = i) then j else k.

(** [l] shows the elements of [base] that stand at the positions [m]. *)
Definition shows {A} (base : list A) (m : list nat) (l : list A) : Prop :=
  length l = length m ∧ ∀ k, l !! k = m !! k ≫= (base !!.).

(** ** Selection as the design words it *)

(** The content of the first identifier of a sequence that is present in
    the corpus mapping, if there is one. *)
Definition first_present (comments : gmap string (list byte))
    (smells : list string) : option (list byte) :=
  match list_find (λ smell, is_Some (comments !! smell)) smells with
  | Some (_, smell) => comments !! smell
  | None => None
  end.

(** The content of the first identifier of a sequence whose content in the
    corpus is not empty; the nil slice if there is none. *)
Definition first_nonempty (comments : gmap string (list byte))
    (smells : list string) : list byte :=
  match list_find (λ smell, content comments smell ≠ []) smells with
  | Some (_, smell) => content comments smell
  | None => []
  end.

Module Counterexample.

(** A corpus with an empty comment file next to a real one. *)
Definition corpus : gmap string (list byte) :=
  {[ "smell/a" := []; "smell/b" := Sample.advice ]}.

Definition results : list analysisResult :=
  [{| Type_ := "smell"; Keys := ["a"; "b"] |}].

(** Draws that leave every element in its place. *)
Definition draws : Rand.Source := λ i, i.

End Counterexample.

(** ** Plain path elements *)

(** Does a string contain a separator? *)
Fixpoint has_sep (s : string) : bool :=
  match s with
  | EmptyString => false
  | String c rest => Ascii.eqb c Filepath.Separator || has_sep rest
  end.

(** A plain name: not empty, not [.] or [..], and without separator. *)
Definition plain (s : string) : Prop :=
  s ≠ "" ∧ s ≠ "." ∧ s ≠ ".." ∧ has_sep s = false.

(** The identifiers [type/key] of a payload, in encounter order. *)
Definition type_slash_key (results : list analysisResult) : list string :=
  result ← results;
  key ← Keys result;
  [Type_ result +:+ "/" +:+ key].

(** ** The visits of a walk *)

(** The calls [Walk] makes to its function on a tree, in order, when none
    of them fails. *)
Fixpoint visited (path : string) (n : node) {struct n}
    : list (string * FileInfo) :=
  match n with
  | File => [(path, {| IsDir := false |})]
  | Dir entries =>
      (path, {| IsDir := true |}) ::
      (fix each (es : list (string * node)) : list (string * FileInfo) :=
         match es with
         | [] => []
         | (name, child) :: rest =>
             visited (Filepath.Join [path; name]) child ++ each rest
         end) entries
  end.

(** Calling a walk function on a list of visits, up to the first error. *)
Fixpoint call_each {S} (walkFn : string → FileInfo → S → error + S)
    (visits : list (string * FileInfo)) (s : S) : error + S :=
  match visits with
  | [] => inr s
  | (path, info) :: rest =>
      match walkFn path info s with
      | inl err => inl err
      | inr s1 => call_each walkFn rest s1
      end
  end.

(** The paths of the regular files among some visits. *)
Definition files_of (visits : list (string * FileInfo)) : list string :=
  visits ≫= λ v, if IsDir (snd v) then [] else [fst v].

(** The paths of the regular files of a tree rooted at [root]. *)
Definition file_paths (root : string) (n : node) : list string :=
  files_of (visited root n).

(** The root of the comment files of the supported track. *)
Definition corpus_root (dir : string) : string :=
  Filepath.Join [dir; "analyzer"; "ruby"].

(** ** Clean paths *)

(** The shape of the buffer of [Clean]: plain names on top of the [..]
    elements that lead a path that is not rooted. *)
Definition canonical (is_rooted : bool) (out : list string) : Prop :=
  ∃ reals k, out = reals ++ replicate k ".." ∧
    Forall plain reals ∧ (is_rooted = true → k = 0).





(** No pair of the replacer applies anywhere inside [s] when [s] is
    followed by [tail]. *)
Fixpoint no_match (r : Strings.Replacer) (s tail : string) : bool :=
  match s with
  | EmptyString => true
  | String c rest =>
      match Strings.lookup_pair r (s +:+ tail) with
      | Some _ => false
      | None => no_match r rest tail
      end
  end.

(** A relative path [stem.md] on which the replacer of [comment_key]
    finds the root and the extension where they are expected only. *)
Definition stem_ok (root stem : string) : Prop :=
  no_match [(root, ""); (".md", "")] ("/" +:+ stem) ".md" = true ∧
  Filepath.rooted stem = false.

(** ** Sample corpora *)

Module CorpusSample.

(** The files [typeA/x.md] and [typeB/y.md] under the root of the corpus
    in the directory [R], with contents [x] and [y]. *)
Definition disk (x y : list byte) : Disk :=
  {| tree := Dir [("typeA", Dir [("x.md", File)]);
                  ("typeB", Dir [("y.md", File)])];
     read := λ path,
       if String.eqb path "R/analyzer/ruby/typeA/x.md" then inr x
       else if String.eqb path "R/analyzer/ruby/typeB/y.md" then inr y
       else inl "no such file" |}.

Definition corpus (x y : list byte) : gmap string (list byte) :=
  {[ "typeA/x" := x; "typeB/y" := y ]}.


End CorpusSample.

(** ** Further notions for the statements about jobs *)

Definition is_fetch (e : event) : bool :=
  match e with CallFetchSolution _ => true | _ => false end.

(** The submission a call is about. *)
Definition event_uuid (e : event) : option string :=
  match e with
  | CallFetchSolution uuid => Some uuid
  | CallSubmitComment _ uuid => Some uuid
  | _ => None
  end.

(** The calls of a trace that go over the network, in order. *)
Definition network_calls (t : list event) : list event :=
  filter (λ e, is_network_call e = true) t.

(** The lines of a trace on the job's own logger. *)
Definition reports (t : list event) : list event :=
  filter (λ e, is_report e = true) t.

(** What the job makes of the answer to an analysis request: a payload,
    when the request went through, the body could be read, the status is
    200 and the body parses. *)
Definition service_answer (w : World) (req : Request)
    : option analysisPayload :=
  match http_Do w req with
  | inl _ => None
  | inr resp =>
      match Body resp with
      | inl _ => None
      | inr body =>
          if (StatusCode resp =? StatusOK)%Z then
            match json_Unmarshal w body with
            | inl _ => None
            | inr ap => Some ap
            end
          else None
      end
  end.

(** The request [process] sends for a submission on the supported track. *)
Definition analysis_request (analyzer : Analyzer) (blob : list byte)
    : Request :=
  {| Method := "POST";
     URL := analysseurHost analyzer +:+ "/analyze/ruby";
     Payload := blob |}.

(** A file that [read] can read. *)
Definition readable (disk : Disk) (path : string) : Prop :=
  ∃ b, read disk path = inr b.


Module Collision.

(** Two files with the same key: [x] and [x.md], visited in this order. *)
Definition disk : Disk :=
  {| tree := Dir [("x", File); ("x.md", File)];
     read := λ path,
       if String.eqb path "R/analyzer/ruby/x" then inr [x01]
       else if String.eqb path "R/analyzer/ruby/x.md" then inr [x02]
       else inl "no such file" |}.

(** The analyzer built from that disk. *)
Definition analyzer : Analyzer :=
  {| exercism := Sample.platform;
     analysseurHost := "http://analysseur";
     comments := {[ "x" := [x02] ]} |}.

(** A corpus of three files of which the second and the third cannot be
    read. *)
Definition unreadable : Disk :=
  {| tree := Dir [("a.md", File); ("b.md", File); ("c.md", File)];
     read := λ path,
       if String.eqb path "R/analyzer/ruby/a.md" then inr [x01]
       else if String.eqb path "R/analyzer/ruby/b.md"
       then inl "permission denied"
       else inl "input/output error" |}.

(** A corpus directory without files. *)
Definition empty : Disk :=
  {| tree := Dir [("typeA", Dir [])];
     read := λ _, inl "no such file" |}.

End Collision.

(** ** The shuffle with the bounds checks of Go *)

Section Checked.

Context {A : Type}.

(** [l[i], l[j] = l[j], l[i]] with the bounds checks of the language:
    [None] stands for the panic on an index out of range. *)
Definition swap_checked (i j : nat) (l : list A) : option (list A) :=
  x ← l !! i; y ← l !! j; Some (<[j:=x]> (<[i:=y]> l)).

(** The shuffle loop with bounds checks. *)
Definition shuffle_checked (src : Rand.Source) (smells : list A)
    : option (list A) :=
  foldl (λ acc i, acc ≫= swap_checked i (Rand.Intn src i (i + 1)))
    (Some smells) (seq 0 (length smells)).

End Checked.

(** The draws [d] bring [s] to the front of the shuffled slice. *)
Definition comes_first {A} (s : A) (l : list A) (d : list nat) : Prop :=
  head (shuffle (source_of d) l) = Some s.

Module Chances.

(** Three distinct smells, each with a comment. *)
Definition smells : list string := ["smell/a"; "smell/b"; "smell/c"].

Definition corpus : gmap string (list byte) :=
  {[ "smell/a" := [x41]; "smell/b" := [x42]; "smell/c" := [x43] ]}.

End Chances.
(** ** The job monad *)

Lemma trace_bind {A B} (m : job A) (k : A → job B) :
  trace (bind m k) =
  match snd m with
  | None => trace m
  | Some x => trace m ++ trace (k x)
  end.
Proof.
  destruct m as [t [x|]]; simpl; [|done].
  by destruct (k x).
Qed.

Lemma process_unfold analyzer w msg :
  process analyzer w msg =
  match snd (analyze analyzer w msg) with
  | None => (trace (analyze analyzer w msg), None)
  | Some (uuid, ap) =>
      (trace (analyze analyzer w msg) ++ trace (respond analyzer w uuid ap),
       snd (respond analyzer w uuid ap))
  end.
Proof.
  unfold process, bind, trace.
  destruct (analyze analyzer w msg) as [t [[uuid ap]|]]; simpl; [|done].
  by destruct (respond analyzer w uuid ap).
Qed.

Ltac run_job :=
  repeat (simpl in *; unfold try, logf, emit, stop, ret, bind, trace,
            http_NewRequest in *;
          case_match; simplify_eq).

(** [analyze] publishes nothing. *)
Lemma analyze_no_submit analyzer w msg :
  Forall (λ e, is_submit e = false) (trace (analyze analyzer w msg)).
Proof.
  unfold analyze. run_job; simpl; repeat constructor.
Qed.

(** ** The shuffle rearranges, and never indexes out of range *)

Section ShuffleFacts.

Context {A : Type}.
Implicit Types (l : list A) (src : Rand.Source).

Lemma Intn_lt src k n : 0 < n → Rand.Intn src k n < n.
Proof. intros. unfold Rand.Intn. apply Nat.mod_upper_bound. lia. Qed.

(** Both indices of every swap of the loop are inside the slice. *)
Lemma shuffle_draw_in_range src l i :
  i < length l → Rand.Intn src i (i + 1) < length l.
Proof. intros. pose proof (Intn_lt src i (i + 1)). lia. Qed.

Lemma swap_same i l : swap i i l = l.
Proof.
  unfold swap. destruct (l !! i) as [x|] eqn:E; [|done].
  by rewrite list_insert_insert_eq, list_insert_id.
Qed.

Lemma swap_length i j l : length (swap i j l) = length l.
Proof.
  unfold swap. repeat case_match; by rewrite ?length_insert.
Qed.

Lemma swap_perm i j l : swap i j l ≡ₚ l.
Proof.
  unfold swap. repeat case_match; [|done..].
  by apply Permutation_insert_swap.
Qed.

Lemma shuffle_steps_perm src (indices : list nat) l :
  foldl (shuffle_step src) l indices ≡ₚ l.
Proof.
  revert l. induction indices as [|i indices IH]; intros l; simpl; [done|].
  rewrite IH. apply swap_perm.
Qed.

Lemma shuffle_perm src l : shuffle src l ≡ₚ l.
Proof. apply shuffle_steps_perm. Qed.

Lemma shuffle_length src l : length (shuffle src l) = length l.
Proof. by rewrite shuffle_perm. Qed.

Lemma elem_of_shuffle src l x : x ∈ shuffle src l ↔ x ∈ l.
Proof. by rewrite shuffle_perm. Qed.

End ShuffleFacts.

(** ** The first available comment *)

Lemma first_comment_cons comments smell rest :
  first_comment comments (smell :: rest) =
  if decide (content comments smell = [])
  then first_comment comments rest
  else content comments smell.
Proof.
  simpl. fold (content comments smell).
  destruct (content comments smell); by case_decide.
Qed.

(** A comment that was picked is the non-empty content of one of the
    smells. *)
Lemma first_comment_found comments smells :
  first_comment comments smells ≠ [] →
  ∃ smell, smell ∈ smells ∧
    comments !! smell = Some (first_comment comments smells).
Proof.
  induction smells as [|smell rest IH]; [done|].
  rewrite first_comment_cons. case_decide as E.
  - intros [s [??]]%IH. exists s. split; [by right|done].
  - intros _. exists smell. split; [by left|].
    unfold content in *. by destruct (comments !! smell).
Qed.

(** Nothing is picked exactly when every smell reads as empty. *)
Lemma first_comment_nil comments smells :
  first_comment comments smells = [] ↔
  ∀ smell, smell ∈ smells → content comments smell = [].
Proof.
  induction smells as [|smell rest IH].
  - split; [|done]. by intros _ ? ?%elem_of_nil.
  - rewrite first_comment_cons. case_decide as E.
    + rewrite IH. split.
      * intros H s [->|?]%elem_of_cons; auto.
      * intros H s ?. apply H. by right.
    + split; [done|]. intros H. apply H. by left.
Qed.

(** When all the smells that have a non-empty content share it, that
    content is picked, wherever they stand in the sequence. *)
Lemma first_comment_only comments smells b :
  b ≠ [] →
  (∃ smell, smell ∈ smells ∧ content comments smell = b) →
  (∀ smell, smell ∈ smells → content comments smell ≠ [] →
            content comments smell = b) →
  first_comment comments smells = b.
Proof.
  intros Hb [s0 [Hin Hs0]] Hall.
  destruct (decide (first_comment comments smells = [])) as [E|E].
  - rewrite first_comment_nil in E. specialize (E s0 Hin). congruence.
  - destruct (first_comment_found _ _ E) as [s [Hs Hc]].
    rewrite <-(Hall s Hs); unfold content; rewrite Hc; simpl; done.
Qed.

(** An entry whose content is empty is skipped as if the key were absent. *)
Lemma first_comment_delete_empty comments smells smell :
  comments !! smell = Some [] →
  first_comment (delete smell comments) smells = first_comment comments smells.
Proof.
  intros Hempty. induction smells as [|s rest IH]; [done|].
  rewrite !first_comment_cons, IH.
  assert (content (delete smell comments) s = content comments s) as ->; [|done].
  unfold content. destruct (decide (smell = s)) as [->|Hne].
  - by rewrite lookup_delete_eq, Hempty.
  - by rewrite lookup_delete_ne.
Qed.

(** ** The two halves of [process] *)

Lemma respond_eq analyzer w uuid ap :
  respond analyzer w uuid ap =
  if decide (Error ap = "") then
    if decide (Results ap = []) then ([], None)
    else
      let comment :=
        select (comments analyzer) (rand_source w) (Results ap) in
      if decide (comment = []) then (sanity_lines uuid (Results ap), None)
      else
        (sanity_lines uuid (Results ap) ++
           CallSubmitComment comment uuid ::
           publish_report analyzer comment uuid,
         Some tt)
  else
    ([Printf lgr "analysis api is complaining about %s - %s\n"
        [AStr uuid; AStr (Error ap)]], None).
Proof.
  unfold respond, select, publish_report.
  destruct (String.eqb_spec (Error ap) "") as [Herr|Herr]; simpl;
    [rewrite decide_True by done|by rewrite decide_False].
  destruct (Results ap) as [|r rs] eqn:Hres; simpl; [done|].
  destruct (first_comment _ _) as [|c cs] eqn:Hc; simpl.
  - by rewrite app_nil_r.
  - by destruct (SubmitComment _ _ _).
Qed.

Lemma analyze_with_comments analyzer c w msg :
  analyze (with_comments analyzer c) w msg = analyze analyzer w msg.
Proof. reflexivity. Qed.

Lemma sanity_lines_printf uuid results e :
  e ∈ sanity_lines uuid results → ∃ f a, e = Printf sanity f a.
Proof.
  unfold sanity_lines. intros (r & He & _)%list_elem_of_bind.
  apply list_elem_of_bind in He as (k & He & _).
  apply list_elem_of_singleton in He. eauto.
Qed.

Lemma filter_none {A} (P : A → Prop) `{!∀ x, Decision (P x)} (l : list A) :
  Forall (λ x, ¬ P x) l → filter P l = [].
Proof.
  induction 1 as [|x l Hx _ IH]; [done|].
  by rewrite filter_cons_False.
Qed.

Lemma filter_submit_sanity uuid results :
  filter (λ e, is_submit e = true) (sanity_lines uuid results) = [].
Proof.
  apply filter_none, Forall_forall.
  intros e (f & a & ->)%sanity_lines_printf. done.
Qed.

Lemma filter_submit_analyze analyzer w msg :
  filter (λ e, is_submit e = true) (trace (analyze analyzer w msg)) = [].
Proof.
  apply filter_none.
  eapply Forall_impl; [apply analyze_no_submit|]. simpl. congruence.
Qed.

(** A publish event of a job comes from its second half. *)
Lemma submit_in_process analyzer w msg c u :
  CallSubmitComment c u ∈ trace (process analyzer w msg) →
  ∃ ap, snd (analyze analyzer w msg) = Some (u, ap) ∧
        Error ap = "" ∧ Results ap ≠ [] ∧
        c = select (comments analyzer) (rand_source w) (Results ap) ∧
        c ≠ [].
Proof.
  rewrite process_unfold.
  pose proof (analyze_no_submit analyzer w msg) as Hno.
  rewrite Forall_forall in Hno.
  destruct (snd (analyze analyzer w msg)) as [[uuid ap]|] eqn:Han; simpl.
  2:{ intros Hin. by apply Hno in Hin. }
  rewrite elem_of_app. intros [Hin|Hin]; [by apply Hno in Hin|].
  rewrite respond_eq in Hin. cbv zeta in Hin.
  repeat case_decide; simpl in Hin;
    try (by apply elem_of_nil in Hin);
    try (by apply sanity_lines_printf in Hin as (?&?&?)).
  - apply elem_of_app in Hin as [Hin|Hin];
      [by apply sanity_lines_printf in Hin as (?&?&?)|].
    apply elem_of_cons in Hin as [Heq|Hin]; [simplify_eq; by exists ap|].
    unfold publish_report in Hin. case_match;
      [by apply list_elem_of_singleton in Hin|by apply elem_of_nil in Hin].
  - by apply list_elem_of_singleton in Hin.
Qed.

(** ** The failure and skip branches of a job *)

(** C7: a message whose first argument is missing or is not a string makes
    the handler return at once, after one line on its logger; no network
    call (fetch, analyze, publish) occurs. *)
Theorem malformed_message_no_network_call analyzer w msg :
  (∀ j, first_argument msg = Some j → is_string j = false) →
  (∃ err, process analyzer w msg =
     ([Printf lgr "unable to determine submission key - %s\n" [AStr err]],
      None)) ∧
  Forall (λ e, is_network_call e = false) (trace (process analyzer w msg)).
Proof.
  intros Harg.
  assert (∃ err, Workers.String (Workers.GetIndex (Workers.Args msg) 0)
                 = inl err) as [err Herr].
  { unfold first_argument in Harg. unfold Workers.GetIndex.
    destruct (Workers.Args msg) as [| | | |items|]; simpl; eauto.
    destruct (items !! 0) as [j|] eqn:Hj; simpl; eauto.
    specialize (Harg j eq_refl). destruct j; simpl in *; eauto. done. }
  assert (process analyzer w msg =
    ([Printf lgr "unable to determine submission key - %s\n" [AStr err]],
     None)) as Hrun.
  { unfold process, analyze. by rewrite Herr. }
  split; [eauto|]. rewrite Hrun. simpl. by repeat constructor.
Qed.

Lemma malformed_message_no_network_call_witness :
  Forall (λ e, is_network_call e = false)
    (trace (process Sample.analyzer (Sample.world Sample.payload)
              Sample.bad_msg)).
Proof.
  apply (malformed_message_no_network_call Sample.analyzer
           (Sample.world Sample.payload) Sample.bad_msg).
  intros j Hj. vm_compute in Hj. injection Hj as <-. reflexivity.
Defined.

(** C6, as the code has it: when the fetched submission is not on the
    track [ruby], neither the analysis call nor the publish call occurs,
    and the skip is not silent: the job returns after the fetch and one
    [skipping] line on its logger, which carries the track and no error
    value. *)
Theorem unsupported_track_skipped analyzer w msg uuid solution :
  Workers.String (Workers.GetIndex (Workers.Args msg) 0) = inr uuid →
  FetchSolution (exercism analyzer) uuid = inr solution →
  TrackID solution ≠ "ruby" →
  process analyzer w msg =
    ([CallFetchSolution uuid;
      Printf lgr "skipping - rikki- doesn't support %s\n"
        [AStr (TrackID solution)]], None) ∧
  Forall (λ e, is_analysis e = false ∧ is_submit e = false)
    (trace (process analyzer w msg)).
Proof.
  intros Hid Hfetch Htrack.
  assert (process analyzer w msg =
    ([CallFetchSolution uuid;
      Printf lgr "skipping - rikki- doesn't support %s\n"
        [AStr (TrackID solution)]], None)) as Hrun.
  { unfold process, analyze. rewrite Hid. simpl. rewrite Hfetch. simpl.
    destruct (String.eqb_spec (TrackID solution) "ruby"); done. }
  split; [done|]. rewrite Hrun. simpl. by repeat constructor.
Qed.

Lemma unsupported_track_skipped_witness :
  process Sample.go_analyzer (Sample.world Sample.payload) Sample.msg =
    ([CallFetchSolution "abc123";
      Printf lgr "skipping - rikki- doesn't support %s\n" [AStr "go"]],
     None).
Proof.
  apply (unsupported_track_skipped Sample.go_analyzer
           (Sample.world Sample.payload) Sample.msg "abc123"
           {| TrackID := "go"; Files := ∅ |});
    [reflexivity|reflexivity|simpl; discriminate].
Defined.

(** C6 as stated fails: the skip of an unsupported track is not silent.
    The job writes a line on [lgr], the logger on which every failure is
    reported, whereas a job that ends for want of a matching comment
    writes none. *)
Lemma unsupported_track_not_silent :
  trace (process Sample.go_analyzer (Sample.world Sample.payload)
           Sample.msg)
    = [CallFetchSolution "abc123";
       Printf lgr "skipping - rikki- doesn't support %s\n" [AStr "go"]] ∧
  Exists (λ e, is_report e = true)
    (trace (process Sample.go_analyzer (Sample.world Sample.payload)
              Sample.msg)) ∧
  Forall (λ e, is_report e = false)
    (trace (process Quiet.analyzer (Sample.world Sample.payload)
              Sample.msg)).
Proof.
  split_and!.
  - by vm_compute.
  - vm_compute. right. by left.
  - vm_compute. by repeat constructor.
Qed.

(** C4: when the parsed payload carries a non-empty error string, whatever
    its results, or has no results, the job returns without selecting:
    nothing follows the analysis but, in the first case, the line that
    reports the complaint; publish is not invoked. *)
Theorem rejected_or_empty_payload_not_published analyzer w msg uuid ap :
  snd (analyze analyzer w msg) = Some (uuid, ap) →
  Error ap ≠ "" ∨ Results ap = [] →
  Forall (λ e, is_submit e = false) (trace (process analyzer w msg)) ∧
  process analyzer w msg =
    (trace (analyze analyzer w msg) ++
       (if decide (Error ap = "") then []
        else [Printf lgr "analysis api is complaining about %s - %s\n"
                [AStr uuid; AStr (Error ap)]]),
     None).
Proof.
  intros Han Hbad.
  assert (process analyzer w msg =
    (trace (analyze analyzer w msg) ++
       (if decide (Error ap = "") then []
        else [Printf lgr "analysis api is complaining about %s - %s\n"
                [AStr uuid; AStr (Error ap)]]),
     None)) as Hrun.
  { rewrite process_unfold, Han, respond_eq.
    destruct (decide (Error ap = "")) as [Herr|Herr]; [|done].
    destruct Hbad as [?|Hres]; [done|].
    by rewrite decide_True. }
  split; [|done]. rewrite Hrun. simpl.
  apply Forall_app. split; [apply analyze_no_submit|].
  case_decide; by repeat constructor.
Qed.

Lemma rejected_or_empty_payload_not_published_witness :
  Forall (λ e, is_submit e = false)
    (trace (process Sample.analyzer (Sample.world Sample.timeout_payload)
              Sample.msg)).
Proof.
  apply (rejected_or_empty_payload_not_published Sample.analyzer
           (Sample.world Sample.timeout_payload) Sample.msg "abc123"
           Sample.timeout_payload);
    [reflexivity|left; simpl; discriminate].
Defined.

(** ** Publishing *)

(** The end-to-end example of the design: the advice for the detected
    smell is published once, for the submission of the message. *)
Lemma end_to_end_sample :
  trace (process Sample.analyzer (Sample.world Sample.payload) Sample.msg)
  = [CallFetchSolution "abc123";
     CallDo {| Method := "POST";
               URL := "http://analysseur/analyze/ruby";
               Payload := Sample.bytes "code" |};
     Printf sanity "%s : %s - %s\n"
       [AStr "abc123"; AStr "smell"; AStr "unused_variable"];
     CallSubmitComment Sample.advice "abc123"].
Proof. by vm_compute. Qed.

(** C8: in every job the publish operation is invoked at most once, and
    only with a comment that was found: the non-empty content the corpus
    holds for one of the smells of the parsed payload. *)
Theorem publish_at_most_once analyzer w msg :
  length (filter (λ e, is_submit e = true)
            (trace (process analyzer w msg))) ≤ 1 ∧
  ∀ c u, CallSubmitComment c u ∈ trace (process analyzer w msg) →
    c ≠ [] ∧
    ∃ ap smell, snd (analyze analyzer w msg) = Some (u, ap) ∧
      smell ∈ flatten (Results ap) ∧
      comments analyzer !! smell = Some c.
Proof.
  split.
  - rewrite process_unfold.
    destruct (snd (analyze analyzer w msg)) as [[uuid ap]|]; simpl;
      [|by rewrite filter_submit_analyze; simpl; lia].
    rewrite filter_app, filter_submit_analyze, respond_eq. cbv zeta.
    unfold trace.
    repeat case_decide; cbn [fst app length];
      rewrite ?filter_submit_sanity; try (simpl; lia).
    rewrite filter_app, filter_submit_sanity, filter_cons_True by done.
    unfold publish_report. case_match; simpl; lia.
  - intros c u (ap & Han & _ & _ & Hc & Hne)%submit_in_process.
    split; [done|]. exists ap.
    unfold select in Hc. rewrite Hc in Hne.
    apply first_comment_found in Hne as (smell & Hin & Hlook).
    exists smell. rewrite elem_of_shuffle in Hin. by rewrite Hc.
Qed.

(** C3: an entry of the corpus whose content is empty is skipped during
    selection as if its key were absent, in the scan and in the whole
    job; hence no job invokes the publisher with an empty content. *)
Theorem empty_content_skipped analyzer w msg :
  (∀ smell, comments analyzer !! smell = Some [] →
     let without := delete smell (comments analyzer) in
     (∀ smells, first_comment without smells
                = first_comment (comments analyzer) smells) ∧
     process (with_comments analyzer without) w msg
     = process analyzer w msg) ∧
  (∀ c u, CallSubmitComment c u ∈ trace (process analyzer w msg) → c ≠ []).
Proof.
  split.
  - intros smell Hempty without. split.
    + intros smells. by apply first_comment_delete_empty.
    + rewrite !process_unfold, analyze_with_comments.
      destruct (snd (analyze analyzer w msg)) as [[uuid ap]|]; [|done].
      rewrite !respond_eq. unfold select, publish_report. simpl.
      subst without. by rewrite first_comment_delete_empty.
  - intros c u (ap & _ & _ & _ & _ & Hne)%submit_in_process. done.
Qed.

(** The analysis call of a job is made in its first half, with the request
    built from the fetched submission. *)
Lemma analysis_call_in_analyze analyzer w msg req :
  CallDo req ∈ trace (analyze analyzer w msg) →
  ∃ uuid solution,
    Workers.String (Workers.GetIndex (Workers.Args msg) 0) = inr uuid ∧
    FetchSolution (exercism analyzer) uuid = inr solution ∧
    TrackID solution = "ruby" ∧
    json_Marshal w
      (Strings.Join (snd <$> map_range (range_seed w) (Files solution))
         line_break)
      = inr (Payload req) ∧
    URL req = analysseurHost analyzer +:+ "/analyze/" +:+ "ruby" ∧
    Method req = "POST".
Proof.
  unfold analyze.
  destruct (Workers.String _) as [err|uuid] eqn:Hid; simpl.
  { intros [?|?%elem_of_nil]%elem_of_cons; done. }
  destruct (FetchSolution _ _) as [err|solution] eqn:Hfetch; simpl.
  { intros [?|[?|?%elem_of_nil]%elem_of_cons]%elem_of_cons; done. }
  destruct (String.eqb_spec (TrackID solution) "ruby") as [Htrack|Htrack];
    simpl.
  2:{ intros [?|[?|?%elem_of_nil]%elem_of_cons]%elem_of_cons; done. }
  intros Hin. exists uuid, solution. rewrite Htrack in *.
  destruct (json_Marshal w _) as [err|blob] eqn:Hblob; simpl in Hin.
  { apply elem_of_cons in Hin as [?|[?|?%elem_of_nil]%elem_of_cons]; done. }
  unfold http_NewRequest in Hin.
  destruct (url_error w _) as [err|] eqn:Hurl; simpl in Hin.
  { apply elem_of_cons in Hin as [?|[?|?%elem_of_nil]%elem_of_cons]; done. }
  assert (req = {| Method := "POST";
                   URL := analysseurHost analyzer +:+ "/analyze/" +:+ "ruby";
                   Payload := blob |}) as ->; [|done].
  run_job; simpl in Hin;
    repeat (apply elem_of_cons in Hin as [Hin|Hin]; simplify_eq; try done);
    by apply elem_of_nil in Hin.
Qed.

Lemma respond_no_analysis analyzer w uuid ap :
  Forall (λ e, is_analysis e = false) (trace (respond analyzer w uuid ap)).
Proof.
  rewrite respond_eq. cbv zeta. unfold publish_report.
  assert (Forall (λ e, is_analysis e = false)
            (sanity_lines uuid (Results ap))) as Hsanity.
  { apply Forall_forall. by intros e (f & a & ->)%sanity_lines_printf. }
  repeat case_decide; simpl; try done; try by repeat constructor.
  apply Forall_app. split; [done|]. case_match; by repeat constructor.
Qed.

Lemma map_range_perm {V} (seed : Rand.Source) (m : gmap string V) :
  map_range seed m ≡ₚ map_to_list m.
Proof. apply shuffle_perm. Qed.

(** C9, as the code has it: the code blob of every analysis request is the
    contents of the submission's files joined by one line feed (and then
    marshalled), in the order in which the range over the map of files
    visits them, a rearrangement of the files that the submission does not
    fix; the file names do not enter it. *)
Theorem code_blob_is_joined_sources analyzer w msg req :
  CallDo req ∈ trace (process analyzer w msg) →
  ∃ uuid solution order,
    Workers.String (Workers.GetIndex (Workers.Args msg) 0) = inr uuid ∧
    FetchSolution (exercism analyzer) uuid = inr solution ∧
    order = map_range (range_seed w) (Files solution) ∧
    order ≡ₚ map_to_list (Files solution) ∧
    json_Marshal w (Strings.Join (snd <$> order) (String "010"%char ""))
      = inr (Payload req).
Proof.
  intros Hin.
  assert (CallDo req ∈ trace (analyze analyzer w msg)) as Hfirst.
  { rewrite process_unfold in Hin.
    destruct (snd (analyze analyzer w msg)) as [[uuid ap]|]; [|done].
    simpl in Hin. apply elem_of_app in Hin as [?|Hin]; [done|].
    pose proof (respond_no_analysis analyzer w uuid ap) as Hno.
    rewrite Forall_forall in Hno. by apply Hno in Hin. }
  apply analysis_call_in_analyze in Hfirst
    as (uuid & solution & ? & ? & _ & ? & _).
  exists uuid, solution, (map_range (range_seed w) (Files solution)).
  split_and!; [done..|apply map_range_perm|done].
Qed.

Lemma code_blob_is_joined_sources_witness :
  ∃ uuid solution order,
    Workers.String (Workers.GetIndex (Workers.Args Sample.msg) 0)
      = inr uuid ∧
    FetchSolution (exercism TwoFiles.analyzer) uuid = inr solution ∧
    order = map_range (λ i, i) (Files solution) ∧
    order ≡ₚ map_to_list (Files solution) ∧
    json_Marshal (TwoFiles.world (λ i, i))
      (Strings.Join (snd <$> order) (String "010"%char ""))
      = inr [x78; x0a; x79].
Proof.
  apply (code_blob_is_joined_sources TwoFiles.analyzer
           (TwoFiles.world (λ i, i)) Sample.msg
           (TwoFiles.request [x78; x0a; x79])).
  vm_compute. right. left.
Defined.

(** C9 as stated fails: the files of a submission have no given order.
    The same submission of two files is sent as [x], line feed, [y] when
    the range visits [a.rb] first, and as [y], line feed, [x] when it
    visits [b.rb] first; both orders are rearrangements of the files. *)
Lemma code_blob_order_varies :
  trace (analyze TwoFiles.analyzer (TwoFiles.world (λ i, i)) Sample.msg)
    = [CallFetchSolution "abc123";
       CallDo (TwoFiles.request [x78; x0a; x79])] ∧
  trace (analyze TwoFiles.analyzer (TwoFiles.world (λ _, 0)) Sample.msg)
    = [CallFetchSolution "abc123";
       CallDo (TwoFiles.request [x79; x0a; x78])] ∧
  map_range (λ i, i) (Files TwoFiles.solution) = [("a.rb", "x"); ("b.rb", "y")] ∧
  map_range (λ _, 0) (Files TwoFiles.solution) = [("b.rb", "y"); ("a.rb", "x")].
Proof. by vm_compute. Qed.

(** ** The shuffle loop, step by step *)

Section ShuffleLoop.

Context {A : Type}.
Implicit Types (l p q : list A) (src : Rand.Source).

Lemma swap_lookup i j l k :
  i < length l → j < length l →
  swap i j l !! k = l !! swapped i j k.
Proof.
  intros Hi Hj. unfold swap, swapped.
  destruct (lookup_lt_is_Some_2 l i Hi) as [x Hx].
  destruct (lookup_lt_is_Some_2 l j Hj) as [y Hy].
  rewrite Hx, Hy.
  destruct (decide (k = j)) as [->|Hkj].
  - by rewrite list_lookup_insert_eq by (by rewrite length_insert).
  - rewrite list_lookup_insert_ne by done.
    destruct (decide (k = i)) as [->|Hki].
    + by rewrite list_lookup_insert_eq.
    + by rewrite list_lookup_insert_ne.
Qed.

Lemma swapped_involutive i j k : swapped i j (swapped i j k) = k.
Proof. unfold swapped. repeat case_decide; congruence. Qed.

Lemma swapped_lt i j k n : i < n → j < n → k < n → swapped i j k < n.
Proof. unfold swapped. repeat case_decide; lia. Qed.

Lemma swap_swap i j l :
  i < length l → j < length l → swap i j (swap i j l) = l.
Proof.
  intros Hi Hj. apply list_eq. intros k.
  rewrite !swap_lookup by (by rewrite ?swap_length).
  by rewrite swapped_involutive.
Qed.

(** A swap inside a prefix leaves the rest of the slice alone. *)
Lemma swap_app_l i j l l' :
  i < length l → j < length l → swap i j (l ++ l') = swap i j l ++ l'.
Proof.
  intros Hi Hj. unfold swap.
  rewrite !lookup_app_l by done.
  destruct (lookup_lt_is_Some_2 l i Hi) as [x ->].
  destruct (lookup_lt_is_Some_2 l j Hj) as [y ->].
  by rewrite !insert_app_l by (by rewrite ?length_insert).
Qed.

Lemma shuffle_steps_length src indices l :
  length (foldl (shuffle_step src) l indices) = length l.
Proof. by rewrite shuffle_steps_perm. Qed.

Lemma shuffle_steps_app_l src indices l l' :
  Forall (λ i, i < length l) indices →
  foldl (shuffle_step src) (l ++ l') indices =
  foldl (shuffle_step src) l indices ++ l'.
Proof.
  intros Hidx. revert l Hidx.
  induction indices as [|i indices IH]; intros l Hidx; simpl; [done|].
  apply Forall_cons in Hidx as [Hi Hidx].
  unfold shuffle_step at 2 4.
  rewrite swap_app_l by (done || by apply shuffle_draw_in_range).
  apply IH. by rewrite swap_length.
Qed.

(** The loop only looks at the draws of the indices it runs over. *)
Lemma shuffle_steps_ext src src' indices l :
  Forall (λ i, src i = src' i) indices →
  foldl (shuffle_step src) l indices = foldl (shuffle_step src') l indices.
Proof.
  intros Hidx. revert l.
  induction Hidx as [|i indices Hi _ IH]; intros l; simpl; [done|].
  rewrite IH. f_equal. unfold shuffle_step, Rand.Intn. by rewrite Hi.
Qed.

Lemma shuffle_ext src src' l :
  (∀ i, i < length l → src i = src' i) → shuffle src l = shuffle src' l.
Proof.
  intros Hsrc. apply shuffle_steps_ext, Forall_forall.
  intros i Hi%elem_of_seq. apply Hsrc. lia.
Qed.

(** The last iteration: the new element goes to the drawn place of the
    shuffled prefix. *)
Lemma shuffle_snoc src l x :
  shuffle src (l ++ [x]) =
  swap (length l) (Rand.Intn src (length l) (length l + 1))
    (shuffle src l ++ [x]).
Proof.
  unfold shuffle. rewrite length_app. simpl.
  rewrite seq_app, foldl_app. simpl.
  rewrite shuffle_steps_app_l; [done|].
  apply Forall_forall. intros i Hi%elem_of_seq. lia.
Qed.

(** The first iteration draws 0 and swaps the first element with itself. *)
Lemma shuffle_step_0 src l : shuffle_step src l 0 = l.
Proof.
  unfold shuffle_step, Rand.Intn. change (0 + 1) with 1.
  rewrite Nat.mod_1_r. apply swap_same.
Qed.

End ShuffleLoop.

(** C10: the loop of the code, which starts at index 0, computes the same
    sequence as the loop that starts at the second element, for every
    input and for all draws that agree on the indices 1 and up: the
    iteration at index 0 always draws 0 and swaps the first element with
    itself. *)
Theorem shuffle_from_first_or_second {A} (src src' : Rand.Source)
    (smells : list A) :
  (∀ i, 1 ≤ i → src i = src' i) →
  Rand.Intn src 0 (0 + 1) = 0 ∧
  shuffle_step src smells 0 = smells ∧
  shuffle src smells = shuffle_from_second src' smells.
Proof.
  intros Hsrc. split; [apply Nat.mod_1_r|].
  split; [apply shuffle_step_0|].
  unfold shuffle, shuffle_from_second.
  destruct smells as [|x smells]; [done|].
  cbn [length seq foldl]. rewrite shuffle_step_0.
  replace (S (length smells) - 1) with (length smells) by lia.
  apply shuffle_steps_ext, Forall_forall.
  intros i Hi%elem_of_seq. apply Hsrc. lia.
Qed.

Lemma shuffle_from_first_or_second_witness :
  shuffle (λ i, 7 * i + 3) ["a"; "b"; "c"; "d"] =
  shuffle_from_second (λ i, if decide (i = 0) then 0 else 7 * i + 3)
    ["a"; "b"; "c"; "d"].
Proof.
  apply (shuffle_from_first_or_second (λ i, 7 * i + 3)
           (λ i, if decide (i = 0) then 0 else 7 * i + 3)
           ["a"; "b"; "c"; "d"]).
  intros i Hi. destruct i; [lia|reflexivity].
Defined.

(** ** Every arrangement comes from exactly one sequence of draws *)

Lemma source_of_app_l d d' i :
  i < length d → source_of (d ++ d') i = source_of d i.
Proof. intros. unfold source_of. by apply app_nth1. Qed.

Lemma source_of_snoc d j : source_of (d ++ [j]) (length d) = j.
Proof.
  unfold source_of. rewrite app_nth2, Nat.sub_diag by lia. done.
Qed.

Lemma valid_draws_nil d : valid_draws 0 d ↔ d = [].
Proof.
  unfold valid_draws. split.
  - intros [Hlen _]. by destruct d.
  - intros ->. split; [done|]. intros i j Hi. by rewrite lookup_nil in Hi.
Qed.

Lemma valid_draws_snoc k d j :
  valid_draws (S k) (d ++ [j]) ↔ valid_draws k d ∧ j ≤ k.
Proof.
  unfold valid_draws. rewrite length_app. simpl. split.
  - intros [Hlen Hd]. assert (length d = k) as Hk by lia.
    split_and!; [done| |].
    + intros i j' Hi. apply (Hd i j'). by apply lookup_app_l_Some.
    + rewrite <-Hk. apply (Hd (length d) j).
      by rewrite lookup_app_r, Nat.sub_diag by lia.
  - intros [[Hlen Hd] Hj]. split; [lia|].
    intros i j' [Hi|[Hi Hlast]]%lookup_app_Some; [eauto|].
    apply list_lookup_singleton_Some in Hlast as [? ->]. lia.
Qed.

Lemma valid_draws_S_inv k d :
  valid_draws (S k) d → ∃ d0 j, d = d0 ++ [j].
Proof.
  intros [Hlen _]. destruct d as [|j d0 _] using rev_ind; [done|]. eauto.
Qed.

Lemma all_draws_S k :
  all_draws (S k) = all_draws k ≫= λ d, (λ j, d ++ [j]) <$> seq 0 (S k).
Proof. done. Qed.

Lemma elem_of_all_draws n d : d ∈ all_draws n ↔ valid_draws n d.
Proof.
  revert d. induction n as [|k IH]; intros d.
  - simpl. by rewrite list_elem_of_singleton, valid_draws_nil.
  - rewrite all_draws_S, list_elem_of_bind. split.
    + intros (d0 & (j & -> & Hj%elem_of_seq)%list_elem_of_fmap & Hd0).
      apply valid_draws_snoc. rewrite <-IH. split; [done|lia].
    + intros Hd. destruct (valid_draws_S_inv _ _ Hd) as (d0 & j & ->).
      apply valid_draws_snoc in Hd as [Hd0 Hj].
      exists d0. rewrite IH. split; [|done].
      apply list_elem_of_fmap. exists j. split; [done|].
      apply elem_of_seq. lia.
Qed.

Lemma NoDup_all_draws n : NoDup (all_draws n).
Proof.
  induction n as [|k IH]; [apply NoDup_singleton|].
  rewrite all_draws_S. apply NoDup_bind; [| |done].
  - intros d1 d2 d _ _ (j1 & -> & _)%list_elem_of_fmap
      (j2 & Heq & _)%list_elem_of_fmap.
    by apply app_inj_tail in Heq as [-> _].
  - intros d _. apply NoDup_fmap; [|apply NoDup_seq].
    intros j1 j2 Heq. by apply app_inj_tail in Heq as [_ ->].
Qed.

(** There are [n!] sequences of draws. *)
Lemma all_draws_length n : length (all_draws n) = fact n.
Proof.
  induction n as [|k IH]; [done|].
  rewrite all_draws_S.
  assert (∀ L : list (list nat),
    length (L ≫= λ d, (λ j, d ++ [j]) <$> seq 0 (S k)) = S k * length L)
    as ->.
  { induction L as [|d L IHL]; [simpl; lia|].
    rewrite bind_cons, length_app, IHL, length_fmap, length_seq.
    simpl. lia. }
  rewrite IH. done.
Qed.

Section Uniform.

Context {A : Type}.
Implicit Types (l p q : list A).

(** The last step of a shuffle run on the draws [d ++ [j]]. *)
Lemma shuffle_draws_snoc d j l x :
  length d = length l → j ≤ length l →
  shuffle (source_of (d ++ [j])) (l ++ [x]) =
  swap (length l) j (shuffle (source_of d) l ++ [x]).
Proof.
  intros Hlen Hj. rewrite shuffle_snoc.
  unfold Rand.Intn. rewrite <-Hlen at 2.
  rewrite source_of_snoc, Nat.mod_small by lia.
  f_equal. f_equal. apply shuffle_ext.
  intros i Hi. apply source_of_app_l. lia.
Qed.

Lemma snoc_of_last n (r : list A) x :
  length r = S n → r !! n = Some x → r = take n r ++ [x].
Proof.
  intros Hlen Hx. rewrite <-(take_drop_middle r n x Hx) at 1.
  by rewrite drop_ge by lia.
Qed.

(** Every arrangement of the slice is the outcome of some draws. *)
Lemma shuffle_reaches l q :
  q ≡ₚ l →
  ∃ d, valid_draws (length l) d ∧ shuffle (source_of d) l = q.
Proof.
  revert q. induction l as [|x l IH] using rev_ind; intros q Hq.
  { apply Permutation_nil_r in Hq as ->. exists [].
    by rewrite valid_draws_nil. }
  set (n := length l).
  assert (length q = S n) as Hlen.
  { rewrite Hq, length_app. simpl. lia. }
  assert (x ∈ q) as [j Hj]%list_elem_of_lookup.
  { rewrite Hq, elem_of_app, list_elem_of_singleton. by right. }
  assert (j < S n) as Hjn.
  { rewrite <-Hlen. by eapply lookup_lt_Some. }
  set (r := swap n j q).
  assert (r !! n = Some x) as Hlast.
  { unfold r. rewrite swap_lookup by lia.
    unfold swapped. repeat case_decide; by simplify_eq. }
  assert (length r = S n) as Hr by (unfold r; by rewrite swap_length).
  pose proof (snoc_of_last n r x Hr Hlast) as Hsplit.
  destruct (IH (take n r)) as (d0 & Hd0 & Hrun).
  { apply (Permutation_app_inv_r [x]).
    rewrite <-Hsplit. unfold r. by rewrite swap_perm. }
  exists (d0 ++ [j]). rewrite length_app. simpl.
  replace (length l + 1) with (S n) by (unfold n; lia).
  split; [apply valid_draws_snoc; split; [done|lia]|].
  rewrite shuffle_draws_snoc by (destruct Hd0; unfold n in *; lia).
  rewrite Hrun, <-Hsplit. unfold r. apply swap_swap; fold n; lia.
Qed.

(** On a slice without duplicates, different draws give different
    outcomes. *)
Lemma shuffle_draws_inj l d d' :
  NoDup l →
  valid_draws (length l) d → valid_draws (length l) d' →
  shuffle (source_of d) l = shuffle (source_of d') l →
  d = d'.
Proof.
  revert d d'. induction l as [|x l IH] using rev_ind;
    intros d d' Hnd Hd Hd' Heq.
  { apply valid_draws_nil in Hd, Hd'. congruence. }
  rewrite length_app in Hd, Hd'. simpl in Hd, Hd'.
  replace (length l + 1) with (S (length l)) in Hd, Hd' by lia.
  destruct (valid_draws_S_inv _ _ Hd) as (d0 & j & ->).
  destruct (valid_draws_S_inv _ _ Hd') as (d0' & j' & ->).
  apply valid_draws_snoc in Hd as [Hd0 Hj], Hd' as [Hd0' Hj'].
  rewrite (shuffle_draws_snoc d0 j), (shuffle_draws_snoc d0' j') in Heq
    by (done || apply Hd0 || apply Hd0').
  pose proof (shuffle_perm (source_of d0) l) as Hperm.
  pose proof (shuffle_length (source_of d0) l) as Hlen.
  pose proof (shuffle_length (source_of d0') l) as Hlen'.
  remember (length l) as n eqn:Hn.
  remember (shuffle (source_of d0) l) as p eqn:Hp.
  remember (shuffle (source_of d0') l) as p' eqn:Hp'.
  assert (length (p ++ [x]) = S n ∧ length (p' ++ [x]) = S n)
    as [Hpx Hpx'] by (rewrite !length_app; simpl; lia).
  assert ((p ++ [x]) !! n = Some x ∧ (p' ++ [x]) !! n = Some x)
    as [Hx Hx'].
  { split; rewrite lookup_app_r by lia.
    - by rewrite Hlen, Nat.sub_diag.
    - by rewrite Hlen', Nat.sub_diag. }
  assert (j = j') as <-.
  { apply (NoDup_lookup (swap n j (p ++ [x])) j j' x).
    - by rewrite swap_perm, Hperm.
    - rewrite swap_lookup by lia. unfold swapped.
      by rewrite decide_True.
    - rewrite Heq, swap_lookup by lia. unfold swapped.
      by rewrite decide_True. }
  apply (f_equal (swap n j)) in Heq.
  rewrite !swap_swap in Heq by lia.
  apply app_inj_tail in Heq as [Heq _].
  apply NoDup_app in Hnd as (Hnd & _ & _).
  subst p p'. by rewrite (IH d0 d0' Hnd Hd0 Hd0' Heq).
Qed.

End Uniform.

(** Every rearrangement of the entries of a map is an order in which a
    range may visit them. *)
Lemma map_range_any_order {V} (m : gmap string V) (order : list (string * V)) :
  order ≡ₚ map_to_list m →
  ∃ seed, map_range seed m = order.
Proof.
  intros (d & _ & Hrun)%shuffle_reaches. by exists (source_of d).
Qed.

Lemma filter_unique_length {B} (P : B → Prop) `{!∀ x, Decision (P x)}
    (L : list B) (x0 : B) :
  NoDup L → x0 ∈ L → P x0 → (∀ y, y ∈ L → P y → y = x0) →
  length (filter P L) = 1.
Proof.
  intros Hnd (L1 & L2 & ->)%list_elem_of_split HP Huniq.
  apply NoDup_app in Hnd as (_ & Hdisj & [Hnotin _]%NoDup_cons).
  rewrite filter_app, filter_cons_True by done.
  rewrite (filter_none P L1), (filter_none P L2); [done| |].
  - apply Forall_forall. intros y Hy HPy.
    assert (y = x0) as -> by (apply Huniq; [set_solver|done]). done.
  - apply Forall_forall. intros y Hy HPy.
    assert (y = x0) as -> by (apply Huniq; [set_solver|done]).
    apply (Hdisj x0 Hy). by left.
Qed.

(** Each arrangement of a slice of distinct elements is the outcome of
    exactly one sequence of draws. *)
Lemma shuffle_outcome_once {A} `{!EqDecision A} (l q : list A) :
  NoDup l → q ≡ₚ l →
  length (filter (λ d, shuffle (source_of d) l = q)
            (all_draws (length l))) = 1.
Proof.
  intros Hnd Hq.
  destruct (shuffle_reaches l q Hq) as (d & Hd & Hrun).
  apply (filter_unique_length _ _ d);
    [apply NoDup_all_draws|by apply elem_of_all_draws|done|].
  intros d' Hd'%elem_of_all_draws Hrun'.
  apply (shuffle_draws_inj l); [done..|congruence].
Qed.

(** ** The shuffle as a permutation of positions *)

Section Positions.

Context {A : Type}.
Implicit Types (base l : list A) (m : list nat).

Lemma swap_out_of_range {B} i j (l : list B) :
  ¬ (i < length l ∧ j < length l) → swap i j l = l.
Proof.
  intros Hout. unfold swap.
  destruct (l !! i) as [x|] eqn:Hi; [|done].
  destruct (l !! j) as [y|] eqn:Hj; [|done].
  apply lookup_lt_Some in Hi, Hj. lia.
Qed.

Lemma swap_shows base m l i j :
  shows base m l → shows base (swap i j m) (swap i j l).
Proof.
  intros [Hlen Hshow]. split; [by rewrite !swap_length|].
  intros k.
  destruct (decide (i < length l ∧ j < length l)) as [[Hi Hj]|Hout].
  - rewrite !swap_lookup by lia. apply Hshow.
  - rewrite (swap_out_of_range i j l), (swap_out_of_range i j m);
      [apply Hshow|lia|done].
Qed.

Lemma shuffle_steps_shows src indices base m l :
  shows base m l →
  shows base (foldl (shuffle_step src) m indices)
    (foldl (shuffle_step src) l indices).
Proof.
  revert m l. induction indices as [|i indices IH]; intros m l Hshow;
    simpl; [done|].
  apply IH. by apply swap_shows.
Qed.

(** The outcome of a shuffle is the input read through the shuffled
    positions. *)
Lemma shuffle_positions src l k :
  shuffle src l !! k = shuffle src (seq 0 (length l)) !! k ≫= (l !!.).
Proof.
  unfold shuffle. rewrite length_seq.
  apply shuffle_steps_shows. split; [by rewrite length_seq|].
  intros i. destruct (decide (i < length l)) as [Hi|Hi].
  - by rewrite lookup_seq_lt.
  - rewrite lookup_seq_ge, lookup_ge_None_2 by lia. done.
Qed.

End Positions.

(** C5: fed with uniform draws, the shuffle pass produces every
    permutation of the smell sequence with the same probability.  A run
    on the draws [d] rearranges the smells by the permutation of positions
    it computes on [0, ..., n-1]; each permutation of the positions is the
    outcome of exactly one of the [n!] equally likely sequences of draws,
    and so is each arrangement of smells that are all distinct. *)
Theorem shuffle_uniform (smells : list string) (positions : list nat) :
  positions ≡ₚ seq 0 (length smells) →
  length (filter
            (λ d, shuffle (source_of d) (seq 0 (length smells)) = positions)
            (all_draws (length smells))) = 1 ∧
  length (all_draws (length smells)) = fact (length smells) ∧
  (∀ d k, shuffle (source_of d) smells !! k =
          shuffle (source_of d) (seq 0 (length smells)) !! k
            ≫= (smells !!.)) ∧
  (NoDup smells → ∀ q, q ≡ₚ smells →
     length (filter (λ d, shuffle (source_of d) smells = q)
               (all_draws (length smells))) = 1).
Proof.
  intros Hperm. split_and!.
  - pose proof (shuffle_outcome_once (seq 0 (length smells)) positions
                  (NoDup_seq _ _) Hperm) as Hone.
    by rewrite length_seq in Hone.
  - apply all_draws_length.
  - intros d k. apply shuffle_positions.
  - intros Hnd q Hq. by apply shuffle_outcome_once.
Qed.

Lemma shuffle_uniform_witness :
  length (filter (λ d, shuffle (source_of d) (seq 0 3) = [2; 0; 1])
            (all_draws 3)) = 1.
Proof.
  apply (shuffle_uniform ["a"; "b"; "c"] [2; 0; 1]). compute_done.
Defined.

(** ** Paths made of plain names *)

Lemma elements_no_sep s : has_sep s = false → Filepath.elements s = [s].
Proof.
  induction s as [|c s IH]; simpl; [done|].
  intros [Hc Hs]%orb_false_iff. rewrite Hc, (IH Hs). done.
Qed.

Lemma elements_app_sep t s :
  has_sep t = false →
  Filepath.elements (t +:+ String Filepath.Separator s)
  = t :: Filepath.elements s.
Proof.
  induction t as [|c t IH]; simpl; [done|].
  intros [Hc Ht]%orb_false_iff. rewrite Hc, (IH Ht). done.
Qed.

Lemma clean_step_plain is_rooted out elem :
  plain elem → Filepath.clean_step is_rooted out elem = elem :: out.
Proof.
  intros (H1 & H2 & H3 & _). unfold Filepath.clean_step.
  apply String.eqb_neq in H1, H2, H3. by rewrite H1, H2, H3.
Qed.

Lemma rooted_no_sep t s :
  t ≠ "" → has_sep t = false → Filepath.rooted (t +:+ s) = false.
Proof.
  destruct t as [|c t]; [done|]. simpl.
  by intros _ [Hc _]%orb_false_iff.
Qed.

(** Joining two plain names puts one separator between them. *)
Lemma Join_plain t k :
  plain t → plain k → Filepath.Join [t; k] = t +:+ "/" +:+ k.
Proof.
  intros Ht Hk.
  pose proof Ht as (Ht1 & _ & _ & Ht4). pose proof Hk as (_ & _ & _ & Hk4).
  unfold Filepath.Join. rewrite (proj2 (String.eqb_neq t "") Ht1).
  change (Strings.Join [t; k] "/") with (t +:+ "/" +:+ k).
  unfold Filepath.Clean, Filepath.render, Filepath.out_elements.
  assert (t +:+ "/" +:+ k ≠ "") as Hne by (by destruct t).
  destruct (String.eqb_spec (t +:+ "/" +:+ k) "") as [|_]; [done|].
  rewrite (rooted_no_sep t _ Ht1 Ht4).
  change ("/" +:+ k) with (String Filepath.Separator k).
  rewrite (elements_app_sep t k Ht4), (elements_no_sep k Hk4).
  cbn [foldl]. rewrite !clean_step_plain by done.
  change (Strings.Join (rev [k; t]) "/") with (t +:+ "/" +:+ k).
  by destruct (String.eqb_spec (t +:+ "/" +:+ k) "").
Qed.

Lemma flatten_plain results :
  (∀ result, result ∈ results →
     plain (Type_ result) ∧ ∀ key, key ∈ Keys result → plain key) →
  flatten results = type_slash_key results.
Proof.
  intros Hplain. unfold flatten, type_slash_key.
  apply Forall_bind_ext, Forall_forall. intros result Hr.
  destruct (Hplain result Hr) as [Ht Hk].
  apply Forall_bind_ext, Forall_forall. intros key Hkey.
  by rewrite Join_plain by auto.
Qed.

(** ** The selector *)

Lemma first_comment_first_nonempty comments smells :
  first_comment comments smells = first_nonempty comments smells.
Proof.
  unfold first_nonempty.
  induction smells as [|smell rest IH]; [done|].
  rewrite first_comment_cons, IH. cbn [list_find].
  destruct (decide (content comments smell = [])) as [Hempty|Hfull].
  - rewrite decide_False by (by intros ?).
    by destruct (list_find _ rest) as [[??]|].
  - by rewrite decide_True.
Qed.

(** C1, as the code has it: the selector returns the content of the first
    identifier of the shuffled sequence whose content in the corpus is
    not empty.  If exactly one identifier among the flattened smells has a
    non-empty content, that content is selected whatever the draws; if
    none has, no comment is selected, and the job returns without
    publishing and without reporting an error.  The identifiers are the
    [type/key] of the results, in encounter order, when types and keys are
    plain names. *)
Theorem select_first_available analyzer w uuid ap :
  select (comments analyzer) (rand_source w) (Results ap)
  = first_nonempty (comments analyzer)
      (shuffle (rand_source w) (flatten (Results ap))) ∧
  (∀ smell,
     smell ∈ flatten (Results ap) →
     content (comments analyzer) smell ≠ [] →
     (∀ other, other ∈ flatten (Results ap) →
        content (comments analyzer) other ≠ [] → other = smell) →
     ∀ src, select (comments analyzer) src (Results ap)
            = content (comments analyzer) smell) ∧
  ((∀ smell, smell ∈ flatten (Results ap) →
      content (comments analyzer) smell = []) →
   (∀ src, select (comments analyzer) src (Results ap) = []) ∧
   (Error ap = "" →
    respond analyzer w uuid ap = (sanity_lines uuid (Results ap), None))) ∧
  ((∀ result, result ∈ Results ap →
      plain (Type_ result) ∧ ∀ key, key ∈ Keys result → plain key) →
   flatten (Results ap) = type_slash_key (Results ap)).
Proof.
  split_and!.
  - apply first_comment_first_nonempty.
  - intros smell Hin Hfull Honly src. unfold select.
    apply first_comment_only; [done| |].
    + exists smell. by rewrite elem_of_shuffle.
    + intros other Hother%elem_of_shuffle Hne. by rewrite (Honly other).
  - intros Hnone.
    assert (∀ src, select (comments analyzer) src (Results ap) = [])
      as Hsel.
    { intros src. unfold select. apply first_comment_nil.
      intros smell Hin%elem_of_shuffle. auto. }
    split; [done|]. intros Herr. rewrite respond_eq, decide_True by done.
    cbv zeta. rewrite Hsel, (decide_True _ _ eq_refl).
    case_decide as Hres; [|done]. by rewrite Hres.
  - apply flatten_plain.
Qed.

(** C1 as stated fails: with an empty comment file for the first smell of
    the shuffled sequence and a real one for the second, the first
    identifier present in the corpus has the empty content, while the
    selector returns the content of the second. *)
Lemma select_first_present_counterexample :
  let smells :=
    shuffle Counterexample.draws (flatten Counterexample.results) in
  smells = ["smell/a"; "smell/b"] ∧
  first_present Counterexample.corpus smells = Some [] ∧
  select Counterexample.corpus Counterexample.draws Counterexample.results
    = Sample.advice ∧
  first_present Counterexample.corpus smells
    ≠ Some (select Counterexample.corpus Counterexample.draws
              Counterexample.results).
Proof. vm_compute. split_and!; done. Qed.

(** ** Walking the corpus tree *)

Lemma node_ind' (P : node → Prop) :
  P File →
  (∀ entries, Forall (λ e, P (snd e)) entries → P (Dir entries)) →
  ∀ n, P n.
Proof.
  intros HF HD.
  exact (fix go (n : node) : P n :=
    match n with
    | File => HF
    | Dir entries =>
        HD entries
          ((fix all (es : list (string * node))
              : Forall (λ e, P (snd e)) es :=
              match es with
              | [] => @List.Forall_nil _ (λ e, P (snd e))
              | e :: rest =>
                  @List.Forall_cons _ (λ e, P (snd e)) e rest
                    (match e as e' return P (snd e') with
                     | (_, child) => go child
                     end)
                    (all rest)
              end) entries)
    end).
Qed.

Section WalkFacts.

Context {S : Type} (walkFn : string → FileInfo → S → error + S).

Lemma call_each_app visits visits' (s : S) :
  call_each walkFn (visits ++ visits') s =
  match call_each walkFn visits s with
  | inl err => inl err
  | inr s1 => call_each walkFn visits' s1
  end.
Proof.
  revert s. induction visits as [|[path info] rest IH]; intros s;
    simpl; [done|].
  by destruct (walkFn path info s).
Qed.

(** A walk calls its function on the visits of the tree, in order, and
    stops at the first error. *)
Lemma walk_visited (n : node) path (s : S) :
  walk walkFn path n s = call_each walkFn (visited path n) s.
Proof.
  revert path s. induction n as [|entries IH] using node_ind';
    intros path s; simpl; [by destruct (walkFn _ _ _)|].
  destruct (walkFn path {| IsDir := true |} s) as [err|s1]; [done|].
  clear s. revert s1.
  induction IH as [|[name child] rest Hchild _ IHrest]; intros s;
    [reflexivity|].
  simpl in Hchild. rewrite call_each_app, <-(Hchild _ s).
  destruct (walk walkFn _ child s); [done|]. apply IHrest.
Qed.

End WalkFacts.

(** ** The corpus *)

Section Corpus.

Variables (disk : Disk) (root : string).
Implicit Types (visits : list (string * FileInfo))
  (acc m : gmap string (list byte)).

Lemma files_of_cons path info visits :
  files_of ((path, info) :: visits) =
  (if IsDir info then [] else [path]) ++ files_of visits.
Proof. done. Qed.

(** Every regular file visited was read. *)
Lemma corpus_files_read visits acc m path :
  call_each (fn disk root) visits acc = inr m →
  path ∈ files_of visits → ∃ b, read disk path = inr b.
Proof.
  revert acc. induction visits as [|[p info] rest IH]; intros acc;
    [by intros _ ?%elem_of_nil|].
  rewrite files_of_cons. simpl. unfold fn at 1.
  destruct (IsDir info) eqn:Hdir; simpl; [by apply IH|].
  destruct (read disk p) as [err|b] eqn:Hread; [done|].
  intros Hrun [->|Hin]%elem_of_cons; eauto.
Qed.

(** Every entry is an entry that was there before or the content of a
    regular file, under the key of its path. *)
Lemma corpus_entry_origin visits acc m key b :
  call_each (fn disk root) visits acc = inr m →
  m !! key = Some b →
  acc !! key = Some b ∨
  ∃ path, path ∈ files_of visits ∧ comment_key root path = key ∧
          read disk path = inr b.
Proof.
  revert acc. induction visits as [|[p info] rest IH]; intros acc;
    [simpl; intros; simplify_eq; by left|].
  rewrite files_of_cons. simpl. unfold fn at 1.
  destruct (IsDir info) eqn:Hdir; simpl; [by apply IH|].
  destruct (read disk p) as [err|c] eqn:Hread; [done|].
  intros Hrun Hm.
  destruct (IH _ Hrun Hm) as [Hacc|(path & Hin & Hkey & Hpath)].
  - destruct (decide (comment_key root p = key)) as [<-|Hne].
    + rewrite lookup_insert_eq in Hacc. simplify_eq.
      right. exists p. split; [by left|done].
    + rewrite lookup_insert_ne in Hacc by done. by left.
  - right. exists path. split; [by right|done].
Qed.

(** A key that no later file takes keeps its entry. *)
Lemma corpus_entry_kept visits acc m key :
  call_each (fn disk root) visits acc = inr m →
  (∀ path, path ∈ files_of visits → comment_key root path ≠ key) →
  m !! key = acc !! key.
Proof.
  revert acc. induction visits as [|[p info] rest IH]; intros acc;
    [simpl; intros; by simplify_eq|].
  rewrite files_of_cons. simpl. unfold fn at 1.
  destruct (IsDir info) eqn:Hdir; simpl; [by apply IH|].
  destruct (read disk p) as [err|c] eqn:Hread; [done|].
  intros Hrun Hfree. rewrite (IH _ Hrun).
  - apply lookup_insert_ne. apply Hfree. by left.
  - intros path Hin. apply Hfree. by right.
Qed.


End Corpus.

(** ** Strings *)

Lemma append_cons (c : ascii) (s t : string) :
  String c s +:+ t = String c (s +:+ t).
Proof. done. Qed.

Lemma append_assoc (s1 s2 s3 : string) :
  (s1 +:+ s2) +:+ s3 = s1 +:+ s2 +:+ s3.
Proof.
  induction s1 as [|c s1 IH]; [done|]. by rewrite !append_cons, IH.
Qed.

Lemma append_nil_r (s : string) : s +:+ "" = s.
Proof. induction s as [|c s IH]; [done|]. by rewrite append_cons, IH. Qed.




(** ** The elements of a path *)

Lemma elements_nonempty p : Filepath.elements p ≠ [].
Proof.
  destruct p as [|c p]; simpl; [done|].
  destruct (Ascii.eqb c Filepath.Separator); [done|].
  by destruct (Filepath.elements p).
Qed.

(** A separator splits the elements of a path. *)
Lemma elements_app p s :
  Filepath.elements (p +:+ String Filepath.Separator s)
  = Filepath.elements p ++ Filepath.elements s.
Proof.
  induction p as [|c p IH]; [done|].
  rewrite append_cons. simpl. rewrite IH.
  destruct (Ascii.eqb c Filepath.Separator); [done|].
  pose proof (elements_nonempty p).
  by destruct (Filepath.elements p).
Qed.

Lemma elements_have_no_sep p :
  Forall (λ e, has_sep e = false) (Filepath.elements p).
Proof.
  induction p as [|c p IH]; simpl; [by repeat constructor|].
  destruct (Ascii.eqb c Filepath.Separator) eqn:Hc; [by constructor|].
  destruct (Filepath.elements p) as [|e es].
  { constructor; [|done]. simpl. by rewrite Hc. }
  apply Forall_cons in IH as [He Hes]. constructor; [|done].
  simpl. by rewrite Hc.
Qed.

Lemma rooted_app p s : p ≠ "" → Filepath.rooted (p +:+ s) = Filepath.rooted p.
Proof. by destruct p. Qed.

(** ** The buffer of [Clean] *)


Lemma canonical_nil is_rooted : canonical is_rooted [].
Proof. exists [], 0. by split_and!. Qed.

Lemma canonical_cons is_rooted name out :
  plain name → canonical is_rooted out → canonical is_rooted (name :: out).
Proof.
  intros Hname (reals & k & -> & Hreals & Hk).
  exists (name :: reals), k. split_and!; [done|by constructor|done].
Qed.

(** What the buffer holds is not empty and has no separator. *)
Lemma canonical_elem is_rooted out e :
  canonical is_rooted out → e ∈ out → e ≠ "" ∧ has_sep e = false.
Proof.
  intros (reals & k & -> & Hreals & _) [Hin|Hin]%elem_of_app.
  - rewrite Forall_forall in Hreals.
    destruct (Hreals e Hin) as (? & _ & _ & ?). done.
  - apply elem_of_replicate_inv in Hin as ->. done.
Qed.

Lemma canonical_step is_rooted out e :
  has_sep e = false → canonical is_rooted out →
  canonical is_rooted (Filepath.clean_step is_rooted out e).
Proof.
  intros He Hout. unfold Filepath.clean_step.
  destruct (String.eqb_spec e "") as [|Hne]; [done|].
  destruct (String.eqb_spec e ".") as [|Hdot]; [done|].
  destruct (String.eqb_spec e "..") as [->|Hdots];
    [|by apply canonical_cons].
  destruct Hout as (reals & k & -> & Hreals & Hk).
  destruct reals as [|x reals]; simpl.
  - destruct k as [|k]; simpl.
    + destruct is_rooted; [apply canonical_nil|].
      exists [], 1. by split_and!.
    + destruct is_rooted; [exists [], (S k); by split_and!|].
      exists [], (S (S k)). by split_and!.
  - apply Forall_cons in Hreals as [(_ & _ & Hx & _) Hreals].
    destruct (String.eqb_spec x ".."); [done|].
    exists reals, k. by split_and!.
Qed.

Lemma canonical_fold is_rooted out es :
  Forall (λ e, has_sep e = false) es → canonical is_rooted out →
  canonical is_rooted (foldl (Filepath.clean_step is_rooted) out es).
Proof.
  intros Hes. revert out.
  induction Hes as [|e es He _ IH]; intros out Hout; simpl; [done|].
  apply IH. by apply canonical_step.
Qed.

Lemma canonical_out_elements p :
  canonical (Filepath.rooted p) (Filepath.out_elements p).
Proof.
  apply canonical_fold; [apply elements_have_no_sep|apply canonical_nil].
Qed.

Lemma rev_replicate {B} k (x : B) : rev (replicate k x) = replicate k x.
Proof.
  induction k as [|k IH]; [done|].
  rewrite replicate_S_end at 2. simpl. by rewrite IH.
Qed.

Lemma fold_dots a k :
  foldl (Filepath.clean_step false) (replicate a "..") (replicate k "..")
  = replicate (k + a) "..".
Proof.
  revert a. induction k as [|k IH]; intros a; [done|].
  change (replicate (S k) "..") with (".." :: replicate k "..").
  cbn [foldl].
  assert (Filepath.clean_step false (replicate a "..") ".."
          = replicate (S a) "..") as -> by (by destruct a).
  rewrite IH. f_equal. lia.
Qed.

Lemma fold_reals is_rooted acc reals :
  Forall plain reals →
  foldl (Filepath.clean_step is_rooted) acc (rev reals) = reals ++ acc.
Proof.
  induction 1 as [|x reals Hx _ IH]; [done|].
  simpl. by rewrite foldl_app, IH; simpl; rewrite clean_step_plain.
Qed.

(** Running the loop of [Clean] over the elements of a buffer in canonical
    shape rebuilds the buffer. *)
Lemma fold_canonical is_rooted out :
  canonical is_rooted out →
  foldl (Filepath.clean_step is_rooted) [] (rev out) = out.
Proof.
  intros (reals & k & -> & Hreals & Hk).
  rewrite rev_app_distr, rev_replicate, foldl_app, fold_reals by done.
  f_equal. destruct is_rooted.
  - by rewrite Hk.
  - pose proof (fold_dots 0 k) as Hdots. cbn [replicate] in Hdots.
    rewrite Hdots. f_equal. lia.
Qed.

(** ** Rendering the buffer *)

Lemma Join_cons_cons x y rest sep :
  Strings.Join (x :: y :: rest) sep
  = x +:+ sep +:+ Strings.Join (y :: rest) sep.
Proof. done. Qed.

Lemma Join_snoc xs x sep :
  xs ≠ [] →
  Strings.Join (xs ++ [x]) sep = Strings.Join xs sep +:+ sep +:+ x.
Proof.
  induction xs as [|y [|z rest] IH]; intros Hne; [done|done|].
  change ((y :: z :: rest) ++ [x]) with (y :: z :: (rest ++ [x])).
  rewrite !Join_cons_cons.
  change (z :: (rest ++ [x])) with ((z :: rest) ++ [x]).
  by rewrite IH, !append_assoc.
Qed.

Lemma Join_nonempty x xs sep : x ≠ "" → Strings.Join (x :: xs) sep ≠ "".
Proof.
  intros Hx. destruct xs as [|y rest]; [done|].
  rewrite Join_cons_cons. by destruct x.
Qed.

Lemma elements_Join xs :
  xs ≠ [] → Forall (λ e, has_sep e = false) xs →
  Filepath.elements (Strings.Join xs "/") = xs.
Proof.
  intros Hne Hxs. induction Hxs as [|x xs Hx Hxs IH]; [done|].
  destruct xs as [|y rest]; [by apply elements_no_sep|].
  rewrite Join_cons_cons.
  change ("/" +:+ Strings.Join (y :: rest) "/")
    with (String Filepath.Separator (Strings.Join (y :: rest) "/")).
  by rewrite elements_app_sep, IH.
Qed.

Lemma rev_out_no_sep is_rooted out :
  canonical is_rooted out →
  Forall (λ e, has_sep e = false) (rev out).
Proof.
  intros Hout. apply Forall_forall. intros e He%list_elem_of_In%in_rev%list_elem_of_In.
  by destruct (canonical_elem _ _ _ Hout He).
Qed.

Lemma rev_out_head is_rooted out x xs :
  canonical is_rooted out → rev out = x :: xs → x ≠ "" ∧ has_sep x = false.
Proof.
  intros Hout Hrev. apply (canonical_elem _ _ _ Hout).
  apply list_elem_of_In, in_rev, list_elem_of_In. rewrite Hrev. by left.
Qed.

Lemma render_nonempty is_rooted out : Filepath.render is_rooted out ≠ "".
Proof.
  unfold Filepath.render. destruct is_rooted; [done|].
  by destruct (String.eqb_spec (Strings.Join (rev out) "/") "").
Qed.

Lemma rooted_render is_rooted out :
  canonical is_rooted out →
  Filepath.rooted (Filepath.render is_rooted out) = is_rooted.
Proof.
  intros Hout. unfold Filepath.render. destruct is_rooted; [done|].
  destruct (String.eqb_spec (Strings.Join (rev out) "/") "") as [|Hne];
    [done|].
  destruct (rev out) as [|x xs] eqn:Hrev; [done|].
  destruct (rev_out_head _ _ x xs Hout Hrev) as [Hx Hsep].
  destruct xs as [|y rest]; simpl.
  - rewrite <-(append_nil_r x). by apply rooted_no_sep.
  - by apply rooted_no_sep.
Qed.

(** [Clean] finds in a rendered buffer the elements of the buffer. *)
Lemma out_elements_render is_rooted out :
  canonical is_rooted out →
  Filepath.out_elements (Filepath.render is_rooted out) = out.
Proof.
  intros Hout. unfold Filepath.out_elements. rewrite rooted_render by done.
  pose proof (rev_out_no_sep _ _ Hout) as Hsep.
  pose proof (fold_canonical _ _ Hout) as Hfold.
  unfold Filepath.render.
  destruct (rev out) as [|x xs] eqn:Hrev.
  - assert (out = []) as ->.
    { apply (f_equal (@rev _)) in Hrev. by rewrite rev_involutive in Hrev. }
    by destruct is_rooted.
  - destruct (rev_out_head _ _ x xs Hout Hrev) as [Hx _].
    pose proof (Join_nonempty x xs "/" Hx) as Hne.
    destruct is_rooted.
    + change ("/" +:+ Strings.Join (x :: xs) "/")
        with (String Filepath.Separator (Strings.Join (x :: xs) "/")).
      change (Filepath.elements (String Filepath.Separator ?s))
        with ("" :: Filepath.elements s).
      by rewrite elements_Join.
    + destruct (String.eqb_spec (Strings.Join (x :: xs) "/") "");
        [done|].
      by rewrite elements_Join.
Qed.

Lemma Clean_render is_rooted out :
  canonical is_rooted out →
  Filepath.Clean (Filepath.render is_rooted out)
  = Filepath.render is_rooted out.
Proof.
  intros Hout. unfold Filepath.Clean.
  destruct (String.eqb_spec (Filepath.render is_rooted out) "")
    as [Hnil|_]; [by apply render_nonempty in Hnil|].
  by rewrite rooted_render, out_elements_render.
Qed.




Lemma Clean_idempotent path :
  Filepath.Clean (Filepath.Clean path) = Filepath.Clean path.
Proof.
  unfold Filepath.Clean at 2 3.
  destruct (String.eqb_spec path ""); [done|].
  apply Clean_render, canonical_out_elements.
Qed.

(** ** The paths of a walk below a clean directory *)

(** Case analysis on the first test of a string against the empty one. *)
Ltac case_empty H :=
  match goal with
  | |- context [String.eqb ?x ""] =>
      destruct (String.eqb_spec x "") as [H|H]
  end.



Lemma plain_ruby : plain "ruby".
Proof. by split_and!. Qed.

Lemma plain_analyzer : plain "analyzer".
Proof. by split_and!. Qed.











(** ** The replacer *)

Section Replacer.

Variable r : Strings.Replacer.




End Replacer.




(** ** Building the corpus *)

Lemma NewAnalyzer_inr disk platform analysseur dir analyzer :
  NewAnalyzer disk platform analysseur dir = inr analyzer →
  call_each (fn disk (corpus_root dir))
    (visited (corpus_root dir) (tree disk)) ∅ = inr (comments analyzer).
Proof.
  unfold NewAnalyzer, Walk. fold (corpus_root dir).
  rewrite walk_visited.
  destruct (call_each _ _ _) as [err|c]; [done|]. by intros [= <-].
Qed.



Lemma stem_ok_sample : stem_ok (corpus_root "R") "typeA/x".
Proof. by vm_compute. Qed.

(** The example of the design: the files [typeA/x.md] and [typeB/y.md]
    under the root give exactly the keys [typeA/x] and [typeB/y], mapped
    to the content of each file. *)
Lemma corpus_of_two_files x y :
  NewAnalyzer (CorpusSample.disk x y) Sample.platform
    "http://analysseur" "R"
  = inr {| exercism := Sample.platform;
           analysseurHost := "http://analysseur";
           comments := CorpusSample.corpus x y |}.
Proof. by vm_compute. Qed.


(** ** The shapes of a job *)

Lemma first_argument_string msg uuid :
  Workers.String (Workers.GetIndex (Workers.Args msg) 0) = inr uuid ↔
  first_argument msg = Some (Workers.JString uuid).
Proof.
  unfold first_argument, Workers.GetIndex.
  destruct (Workers.Args msg) as [| | | |items|]; simpl; try done.
  destruct (items !! 0) as [[]|]; simpl; split; intros; by simplify_eq.
Qed.

Lemma GetIndex_first_argument msg :
  Workers.GetIndex (Workers.Args msg) 0
  = default Workers.JNull (first_argument msg).
Proof.
  unfold first_argument, Workers.GetIndex.
  by destruct (Workers.Args msg).
Qed.

(** The four ways the first half of a job can go: no submission key; a
    fetch and a report; a fetch, an analysis call and a report; a fetch
    and an analysis call that yields a payload. *)
Lemma analyze_cases analyzer w msg :
  (∃ format args,
     (∀ uuid, first_argument msg ≠ Some (Workers.JString uuid)) ∧
     analyze analyzer w msg = ([Printf lgr format args], None)) ∨
  (∃ uuid format args,
     first_argument msg = Some (Workers.JString uuid) ∧
     analyze analyzer w msg
     = ([CallFetchSolution uuid; Printf lgr format args], None)) ∨
  (∃ uuid blob format args,
     first_argument msg = Some (Workers.JString uuid) ∧
     service_answer w (analysis_request analyzer blob) = None ∧
     analyze analyzer w msg
     = ([CallFetchSolution uuid; CallDo (analysis_request analyzer blob);
         Printf lgr format args], None)) ∨
  (∃ uuid blob ap,
     first_argument msg = Some (Workers.JString uuid) ∧
     service_answer w (analysis_request analyzer blob) = Some ap ∧
     analyze analyzer w msg
     = ([CallFetchSolution uuid; CallDo (analysis_request analyzer blob)],
        Some (uuid, ap))).
Proof.
  unfold analyze.
  destruct (Workers.String _) as [err|uuid] eqn:Hid; simpl.
  { left. eexists _, _. split; [|done].
    intros uuid Hu%first_argument_string. congruence. }
  right. apply first_argument_string in Hid.
  destruct (FetchSolution _ _) as [err|solution] eqn:Hfetch; simpl.
  { left. eexists _, _, _. split; [exact Hid|reflexivity]. }
  destruct (String.eqb_spec (TrackID solution) "ruby") as [Htrack|Htrack];
    simpl; [|left; eexists _, _, _; split; [exact Hid|reflexivity]].
  rewrite Htrack.
  destruct (json_Marshal w _) as [err|blob] eqn:Hblob; simpl.
  { left. eexists _, _, _. split; [exact Hid|reflexivity]. }
  unfold http_NewRequest.
  destruct (url_error w _) as [err|] eqn:Hurl; simpl.
  { left. eexists _, _, _. split; [exact Hid|reflexivity]. }
  right.
  change {| Method := "POST";
            URL := analysseurHost analyzer +:+ "/analyze/" +:+ "ruby";
            Payload := blob |} with (analysis_request analyzer blob).
  destruct (http_Do w _) as [err|resp] eqn:Hdo; simpl.
  { left. eexists uuid, blob, _, _. split_and!; [exact Hid|by unfold service_answer; rewrite ?Hdo, ?Hbody, ?Hstatus, ?Hparse|reflexivity]. }
  destruct (Body resp) as [err|body] eqn:Hbody; simpl.
  { left. eexists uuid, blob, _, _. split_and!; [exact Hid|by unfold service_answer; rewrite ?Hdo, ?Hbody, ?Hstatus, ?Hparse|reflexivity]. }
  destruct (StatusCode resp =? StatusOK)%Z eqn:Hstatus; simpl;
    [|left; eexists uuid, blob, _, _; split_and!; [exact Hid|by unfold service_answer; rewrite ?Hdo, ?Hbody, ?Hstatus, ?Hparse|reflexivity]].
  destruct (json_Unmarshal w body) as [err|ap] eqn:Hparse; simpl.
  { left. eexists uuid, blob, _, _. split_and!; [exact Hid|by unfold service_answer; rewrite ?Hdo, ?Hbody, ?Hstatus, ?Hparse|reflexivity]. }
  right. exists uuid, blob, ap.
  split_and!; [exact Hid|by unfold service_answer; rewrite ?Hdo, ?Hbody, ?Hstatus, ?Hparse|reflexivity].
Qed.

Lemma network_calls_sanity uuid results :
  network_calls (sanity_lines uuid results) = [].
Proof.
  apply filter_none, Forall_forall.
  intros e (f & a & ->)%sanity_lines_printf. done.
Qed.

Lemma reports_sanity uuid results :
  reports (sanity_lines uuid results) = [].
Proof.
  apply filter_none, Forall_forall.
  intros e (f & a & ->)%sanity_lines_printf. done.
Qed.

Lemma network_calls_app t t' :
  network_calls (t ++ t') = network_calls t ++ network_calls t'.
Proof. apply filter_app. Qed.

Lemma reports_app t t' : reports (t ++ t') = reports t ++ reports t'.
Proof. apply filter_app. Qed.

Lemma publish_report_cases analyzer comment uuid :
  (SubmitComment (exercism analyzer) comment uuid = None ∧
   publish_report analyzer comment uuid = []) ∨
  (∃ err, SubmitComment (exercism analyzer) comment uuid = Some err ∧
   publish_report analyzer comment uuid = [Printf lgr "%s\n" [AStr err]]).
Proof.
  unfold publish_report.
  destruct (SubmitComment _ _ _) as [err|]; [right|left]; eauto.
Qed.

(** The ways the second half of a job can go. *)
Lemma respond_cases analyzer w uuid ap :
  (∃ format args,
     respond analyzer w uuid ap = ([Printf lgr format args], None)) ∨
  respond analyzer w uuid ap = ([], None) ∨
  respond analyzer w uuid ap = (sanity_lines uuid (Results ap), None) ∨
  (∃ comment,
     comment = select (comments analyzer) (rand_source w) (Results ap) ∧
     comment ≠ [] ∧
     respond analyzer w uuid ap
     = (sanity_lines uuid (Results ap) ++
          CallSubmitComment comment uuid ::
          publish_report analyzer comment uuid, Some tt)).
Proof.
  rewrite respond_eq. cbv zeta. repeat case_decide; eauto 10.
Qed.

(** X1: the calls of every job are made in the order fetch, analysis, publish,
    each at most once and none without the one before it. *)
Theorem calls_in_order analyzer w msg :
  ∃ uuid req comment,
    network_calls (trace (process analyzer w msg))
    `prefix_of` [CallFetchSolution uuid; CallDo req;
                 CallSubmitComment comment uuid].
Proof.
  rewrite process_unfold.
  destruct (analyze_cases analyzer w msg)
    as [(f & args & _ & ->)|[(u & f & args & _ & ->)|
        [(u & blob & f & args & _ & _ & ->)|(u & blob & ap & _ & _ & ->)]]];
    cbn [snd fst trace].
  - exists "", (analysis_request analyzer []), []. by eexists.
  - exists u, (analysis_request analyzer []), []. by eexists.
  - exists u, (analysis_request analyzer blob), []. by eexists.
  - exists u, (analysis_request analyzer blob),
      (select (comments analyzer) (rand_source w) (Results ap)).
    destruct (respond_cases analyzer w u ap)
      as [(f & args & ->)|[->|[->|(c & -> & _ & ->)]]];
      unfold trace; cbn [fst];
      rewrite ?network_calls_app, ?network_calls_sanity;
      try (unfold network_calls; simpl; by eexists).
    destruct (publish_report_cases analyzer
                (select (comments analyzer) (rand_source w) (Results ap)) u)
      as [[_ ->]|(err & _ & ->)]; unfold network_calls; simpl; by eexists.
Qed.

(** X2: every job writes at most one line on its logger. *)
Theorem at_most_one_report analyzer w msg :
  length (reports (trace (process analyzer w msg))) ≤ 1.
Proof.
  rewrite process_unfold.
  destruct (analyze_cases analyzer w msg)
    as [(f & args & _ & ->)|[(u & f & args & _ & ->)|
        [(u & blob & f & args & _ & _ & ->)|(u & blob & ap & _ & _ & ->)]]];
    cbn [snd fst trace]; [unfold reports; simpl; lia..|].
  destruct (respond_cases analyzer w u ap)
    as [(f & args & ->)|[->|[->|(c & _ & _ & ->)]]];
    unfold trace; cbn [fst];
    rewrite ?reports_app, ?reports_sanity;
    try (unfold reports; simpl; lia).
  destruct (publish_report_cases analyzer c u)
    as [[_ ->]|(err & _ & ->)]; unfold reports; simpl; lia.
Qed.

(** X3: a job that stops in its first half (no submission key, failed fetch,
    unsupported track, request that cannot be built or sent, unreadable
    or non-OK or unparsable answer) writes exactly one line on its logger,
    after the calls it has made, and does nothing more. *)
Theorem aborted_job_reports_once analyzer w msg :
  snd (analyze analyzer w msg) = None →
  ∃ calls format args,
    process analyzer w msg = (calls ++ [Printf lgr format args], None) ∧
    Forall (λ e, is_network_call e = true ∧ is_submit e = false) calls.
Proof.
  intros Hstop. rewrite process_unfold, Hstop.
  destruct (analyze_cases analyzer w msg)
    as [(f & args & _ & Han)|[(u & f & args & _ & Han)|
        [(u & blob & f & args & _ & _ & Han)|(u & blob & ap & _ & _ & Han)]]];
    rewrite Han in *; cbn [snd fst trace] in *; [| | |done].
  - exists [], f, args. by split.
  - exists [CallFetchSolution u], f, args. split; [done|].
    by repeat constructor.
  - exists [CallFetchSolution u; CallDo (analysis_request analyzer blob)],
      f, args.
    split; [done|]. by repeat constructor.
Qed.

Lemma aborted_job_reports_once_witness :
  ∃ calls format args,
    process Sample.go_analyzer (Sample.world Sample.payload) Sample.msg
    = (calls ++ [Printf lgr format args], None) ∧
    Forall (λ e, is_network_call e = true ∧ is_submit e = false) calls.
Proof.
  apply (aborted_job_reports_once Sample.go_analyzer
           (Sample.world Sample.payload) Sample.msg).
  reflexivity.
Defined.

Lemma analysis_call_of_process analyzer w msg req :
  CallDo req ∈ trace (process analyzer w msg) →
  CallDo req ∈ trace (analyze analyzer w msg).
Proof.
  rewrite process_unfold.
  destruct (snd (analyze analyzer w msg)) as [[uuid ap]|]; [|done].
  cbn [trace fst]. intros [?|Hin]%elem_of_app; [done|].
  pose proof (respond_no_analysis analyzer w uuid ap) as Hno.
  rewrite Forall_forall in Hno. by apply Hno in Hin.
Qed.

(** The analysis call of a job, with what became of it. *)
Lemma analysis_call_cases analyzer w msg req :
  CallDo req ∈ trace (process analyzer w msg) →
  ∃ uuid blob,
    req = analysis_request analyzer blob ∧
    first_argument msg = Some (Workers.JString uuid) ∧
    ((∃ format args,
        service_answer w req = None ∧
        analyze analyzer w msg
        = ([CallFetchSolution uuid; CallDo req; Printf lgr format args],
           None)) ∨
     (∃ ap,
        service_answer w req = Some ap ∧
        analyze analyzer w msg
        = ([CallFetchSolution uuid; CallDo req], Some (uuid, ap)))).
Proof.
  intros Hin%analysis_call_of_process.
  destruct (analyze_cases analyzer w msg)
    as [(f & args & _ & Han)|[(u & f & args & _ & Han)|
        [(u & blob & f & args & Hu & Hans & Han)|
         (u & blob & ap & Hu & Hans & Han)]]];
    rewrite Han in Hin; cbn [trace fst] in Hin;
    repeat (apply elem_of_cons in Hin as [Hin|Hin]; simplify_eq);
    try (by apply elem_of_nil in Hin).
  - exists u, blob. split_and!; [done..|]. left. eauto.
  - exists u, blob. split_and!; [done..|]. right. eauto.
Qed.

(** X4: whether a job goes on after its analysis call is decided by the answer
    alone: with a 200 answer whose body parses the job responds to the
    parsed payload; in every other case (transport error, unreadable
    body, any other status, unparsable body) it reports and stops. *)
Theorem answer_decides_selection analyzer w msg req :
  CallDo req ∈ trace (process analyzer w msg) →
  ∃ uuid,
    match service_answer w req with
    | Some ap =>
        process analyzer w msg
        = ([CallFetchSolution uuid; CallDo req]
             ++ trace (respond analyzer w uuid ap),
           snd (respond analyzer w uuid ap))
    | None =>
        ∃ format args,
          process analyzer w msg
          = ([CallFetchSolution uuid; CallDo req; Printf lgr format args],
             None)
    end.
Proof.
  intros (uuid & blob & -> & _ & [(f & args & Hans & Han)|(ap & Hans & Han)])
    %analysis_call_cases; exists uuid; rewrite Hans, process_unfold, Han.
  - by exists f, args.
  - done.
Qed.

Lemma answer_decides_selection_witness :
  ∃ uuid format args,
    process Sample.analyzer
      {| json_Marshal := λ code, inr (Sample.bytes code);
         url_error := λ _, None;
         http_Do := λ _, inr {| StatusCode := 500;
                                Body := inr (Sample.bytes "{}") |};
         json_Unmarshal := λ _, inr Sample.payload;
         rand_source := λ i, i;
         range_seed := λ i, i |}
      Sample.msg
    = ([CallFetchSolution uuid;
        CallDo (analysis_request Sample.analyzer (Sample.bytes "code"));
        Printf lgr format args], None).
Proof.
  apply (answer_decides_selection Sample.analyzer
           {| json_Marshal := λ code, inr (Sample.bytes code);
              url_error := λ _, None;
              http_Do := λ _, inr {| StatusCode := 500;
                                     Body := inr (Sample.bytes "{}") |};
              json_Unmarshal := λ _, inr Sample.payload;
              rand_source := λ i, i;
         range_seed := λ i, i |}
           Sample.msg
           (analysis_request Sample.analyzer (Sample.bytes "code"))).
  vm_compute. right. left.
Defined.

(** X5: every analysis request is a POST to the [analyze/ruby] endpoint of
    the configured host, whatever the submission. *)
Theorem analysis_request_is_post analyzer w msg req :
  CallDo req ∈ trace (process analyzer w msg) →
  Method req = "POST" ∧
  URL req = analysseurHost analyzer +:+ "/analyze/ruby".
Proof.
  by intros (uuid & blob & -> & _)%analysis_call_cases.
Qed.

Lemma analysis_request_is_post_witness :
  URL (analysis_request Sample.analyzer (Sample.bytes "code"))
  = "http://analysseur/analyze/ruby".
Proof.
  apply (analysis_request_is_post Sample.analyzer
           (Sample.world Sample.payload) Sample.msg
           (analysis_request Sample.analyzer (Sample.bytes "code"))).
  vm_compute. right. left.
Defined.

(** X6: the fetch and the publish of a job are both about the submission named
    by the first argument of its message. *)
Theorem calls_concern_message_uuid analyzer w msg e uuid :
  e ∈ trace (process analyzer w msg) →
  event_uuid e = Some uuid →
  first_argument msg = Some (Workers.JString uuid).
Proof.
  rewrite process_unfold.
  destruct (analyze_cases analyzer w msg)
    as [(f & args & _ & ->)|[(u & f & args & Hu & ->)|
        [(u & blob & f & args & Hu & _ & ->)|(u & blob & ap & Hu & _ & ->)]]];
    cbn [snd fst trace];
    try (intros Hin Huuid;
         repeat (apply elem_of_cons in Hin as [->|Hin]; simplify_eq/=);
         try done; by apply elem_of_nil in Hin).
  intros Hin Huuid. apply elem_of_app in Hin as [Hin|Hin].
  { repeat (apply elem_of_cons in Hin as [->|Hin]; simplify_eq/=);
      try done; by apply elem_of_nil in Hin. }
  destruct (respond_cases analyzer w u ap)
    as [(f & args & Hr)|[Hr|[Hr|(c & _ & _ & Hr)]]];
    rewrite Hr in Hin; cbn [fst] in Hin.
  - apply list_elem_of_singleton in Hin as ->. done.
  - by apply elem_of_nil in Hin.
  - by apply sanity_lines_printf in Hin as (? & ? & ->).
  - apply elem_of_app in Hin as [Hin|Hin];
      [by apply sanity_lines_printf in Hin as (? & ? & ->)|].
    apply elem_of_cons in Hin as [->|Hin]; [by simplify_eq/=|].
    destruct (publish_report_cases analyzer c u)
      as [[_ Hp]|(err & _ & Hp)]; rewrite Hp in Hin.
    + by apply elem_of_nil in Hin.
    + apply list_elem_of_singleton in Hin as ->. done.
Qed.

Lemma calls_concern_message_uuid_witness :
  first_argument Sample.msg = Some (Workers.JString "abc123").
Proof.
  apply (calls_concern_message_uuid Sample.analyzer
           (Sample.world Sample.payload) Sample.msg
           (CallSubmitComment Sample.advice "abc123") "abc123").
  - vm_compute. do 3 right. left.
  - reflexivity.
Defined.

(** X7: a job looks at the first argument of its message only. *)
Theorem process_first_argument_only analyzer w msg msg' :
  first_argument msg = first_argument msg' →
  process analyzer w msg = process analyzer w msg'.
Proof.
  intros Hsame. unfold process, analyze.
  by rewrite !GetIndex_first_argument, Hsame.
Qed.

Lemma process_first_argument_only_witness :
  process Sample.analyzer (Sample.world Sample.payload) Sample.msg
  = process Sample.analyzer (Sample.world Sample.payload)
      {| Workers.Args :=
           Workers.JArray [Workers.JString "abc123"; Workers.JNull;
                           Workers.JNumber "7"] |}.
Proof.
  apply (process_first_argument_only Sample.analyzer
           (Sample.world Sample.payload) Sample.msg
           {| Workers.Args :=
                Workers.JArray [Workers.JString "abc123"; Workers.JNull;
                                Workers.JNumber "7"] |}).
  reflexivity.
Defined.

(** X8: the publish is the last call of a job: nothing is reported before it,
    and after it comes only the error of the publisher, if it fails. *)
Theorem publish_comes_last analyzer w msg comment uuid :
  CallSubmitComment comment uuid ∈ trace (process analyzer w msg) →
  ∃ before,
    trace (process analyzer w msg)
    = before ++ CallSubmitComment comment uuid ::
        match SubmitComment (exercism analyzer) comment uuid with
        | Some err => [Printf lgr "%s\n" [AStr err]]
        | None => []
        end ∧
    Forall (λ e, is_submit e = false ∧ is_report e = false) before.
Proof.
  intros Hin.
  destruct (submit_in_process _ _ _ _ _ Hin)
    as (ap & Han & Herr & Hres & Hc & Hne).
  rewrite process_unfold, Han in *. cbn [trace fst] in *.
  destruct (analyze_cases analyzer w msg)
    as [(f & args & _ & Hcase)|[(u & f & args & _ & Hcase)|
        [(u & blob & f & args & _ & _ & Hcase)|
         (u & blob & ap' & _ & _ & Hcase)]]];
    rewrite Hcase in Han; simplify_eq/=.
  rewrite Hcase, respond_eq. cbv zeta.
  rewrite decide_True, decide_False, decide_False by done.
  cbn [fst].
  exists ([CallFetchSolution uuid; CallDo (analysis_request analyzer blob)]
            ++ sanity_lines uuid (Results ap)).
  split; [by rewrite <-app_assoc|].
  apply Forall_app. split; [by repeat constructor|].
  apply Forall_forall. by intros e (f & a & ->)%sanity_lines_printf.
Qed.

Lemma publish_comes_last_witness :
  ∃ before,
    trace (process Sample.analyzer (Sample.world Sample.payload) Sample.msg)
    = before ++ [CallSubmitComment Sample.advice "abc123"] ∧
    Forall (λ e, is_submit e = false ∧ is_report e = false) before.
Proof.
  apply (publish_comes_last Sample.analyzer (Sample.world Sample.payload)
           Sample.msg Sample.advice "abc123").
  vm_compute. do 3 right. left.
Defined.

Lemma bind_keys_nil {B} (results : list analysisResult)
    (f : analysisResult → string → list B) :
  (∀ result, result ∈ results → Keys result = []) →
  (results ≫= λ result, Keys result ≫= f result) = [].
Proof.
  induction results as [|r rs IH]; intros Hkeys; [done|].
  assert (Keys r = []) as Hr by (apply Hkeys; by left).
  rewrite bind_cons, Hr, IH; [done|].
  intros r' Hr'. apply Hkeys. by right.
Qed.

(** X9: a payload whose results have no keys gives no smell: the job stops
    after the analysis, without a line and without publishing. *)
Theorem results_without_keys analyzer w msg uuid ap :
  snd (analyze analyzer w msg) = Some (uuid, ap) →
  Error ap = "" →
  (∀ result, result ∈ Results ap → Keys result = []) →
  flatten (Results ap) = [] ∧
  process analyzer w msg = (trace (analyze analyzer w msg), None).
Proof.
  intros Han Herr Hkeys.
  pose proof (λ B, bind_keys_nil (B:=B) (Results ap)) as Hnil.
  split; [by apply Hnil|].
  rewrite process_unfold, Han, respond_eq. cbv zeta.
  unfold select, flatten, sanity_lines.
  rewrite !Hnil, decide_True by done.
  case_decide; by rewrite ?app_nil_r.
Qed.

Lemma results_without_keys_witness :
  process Sample.analyzer
    (Sample.world {| Results := [{| Type_ := "smell"; Keys := [] |}];
                     Error := "" |})
    Sample.msg
  = ([CallFetchSolution "abc123";
      CallDo (analysis_request Sample.analyzer (Sample.bytes "code"))],
     None).
Proof.
  apply (results_without_keys Sample.analyzer
           (Sample.world {| Results := [{| Type_ := "smell"; Keys := [] |}];
                            Error := "" |})
           Sample.msg "abc123"
           {| Results := [{| Type_ := "smell"; Keys := [] |}];
              Error := "" |}); [reflexivity|reflexivity|].
  intros result Hin. apply list_elem_of_singleton in Hin as ->. reflexivity.
Defined.

(** ** Failures and collisions while the corpus is built *)

Lemma call_each_fn_inl disk root visits acc err :
  call_each (fn disk root) visits acc = inl err ↔
  ∃ before path after,
    files_of visits = before ++ path :: after ∧
    read disk path = inl err ∧
    Forall (readable disk) before.
Proof.
  revert acc. induction visits as [|[p info] rest IH]; intros acc.
  { split; [done|]. intros (before & path & after & Hsplit & _).
    by destruct before. }
  rewrite files_of_cons. simpl. unfold fn at 1.
  destruct (IsDir info); simpl; [apply IH|].
  destruct (read disk p) as [e|c] eqn:Hread.
  - split.
    + intros [= ->]. by exists [], p, (files_of rest).
    + intros ([|q before] & path & after & Hsplit & Hpath & Hbefore);
        simplify_eq/=; [congruence|].
      apply Forall_cons in Hbefore as [[b Hb] _]. congruence.
  - rewrite IH. split.
    + intros (before & path & after & -> & Hpath & Hbefore).
      exists (p :: before), path, after. split_and!; [done..|].
      constructor; [by exists c|done].
    + intros ([|q before] & path & after & Hsplit & Hpath & Hbefore);
        simplify_eq/=; [congruence|].
      apply Forall_cons in Hbefore as [_ Hbefore].
      by exists before, path, after.
Qed.

Lemma call_each_fn_inr disk root visits acc :
  (∃ m, call_each (fn disk root) visits acc = inr m) ↔
  Forall (readable disk) (files_of visits).
Proof.
  split.
  - intros [m Hrun]. apply Forall_forall. intros path Hin.
    by eapply corpus_files_read.
  - intros Hall.
    destruct (call_each (fn disk root) visits acc) as [err|m] eqn:Hrun;
      [|by exists m].
    apply call_each_fn_inl in Hrun
      as (before & path & after & Hsplit & Hpath & _).
    rewrite Hsplit, Forall_app, Forall_cons in Hall.
    destruct Hall as (_ & [b Hb] & _). congruence.
Qed.

Lemma NewAnalyzer_call_each disk platform analysseur dir :
  NewAnalyzer disk platform analysseur dir =
  match call_each (fn disk (corpus_root dir))
          (visited (corpus_root dir) (tree disk)) ∅ with
  | inl err => inl err
  | inr c => inr {| exercism := platform;
                    analysseurHost := analysseur;
                    comments := c |}
  end.
Proof.
  unfold NewAnalyzer, Walk. fold (corpus_root dir). by rewrite walk_visited.
Qed.

(** X10: an error that [NewAnalyzer] returns is the error of reading a
    regular file: the first file, in the order of the walk, that could not
    be read, every file visited before it having been read. *)
Theorem NewAnalyzer_first_read_error disk platform analysseur dir err :
  NewAnalyzer disk platform analysseur dir = inl err →
  ∃ before path after,
    file_paths (corpus_root dir) (tree disk) = before ++ path :: after ∧
    read disk path = inl err ∧
    Forall (readable disk) before.
Proof.
  rewrite NewAnalyzer_call_each. unfold file_paths.
  rewrite <-(call_each_fn_inl disk (corpus_root dir) _ ∅).
  destruct (call_each _ _ _); congruence.
Qed.

Lemma call_each_fn_size disk root visits acc m :
  call_each (fn disk root) visits acc = inr m →
  size m ≤ size acc + length (files_of visits) ∧
  (NoDup (comment_key root <$> files_of visits) →
   (∀ path, path ∈ files_of visits → acc !! comment_key root path = None) →
   size m = size acc + length (files_of visits)).
Proof.
  revert acc. induction visits as [|[p info] rest IH]; intros acc.
  { intros [= <-]. simpl. split; [lia|intros; lia]. }
  rewrite files_of_cons. simpl. unfold fn at 1.
  destruct (IsDir info); simpl; [apply IH|].
  destruct (read disk p) as [e|c] eqn:Hread; [done|].
  intros Hrun. destruct (IH _ Hrun) as [Hle Heq].
  split.
  - rewrite map_size_insert in Hle.
    destruct (acc !! comment_key root p); unfold id in Hle; lia.
  - intros Hnd Hnew. apply NoDup_cons in Hnd as [Hfresh Hnd].
    rewrite Heq, map_size_insert_None; [lia|apply Hnew; by left|done|].
    intros path Hin. rewrite lookup_insert_ne.
    + apply Hnew. by right.
    + intros Hsame. apply Hfresh. rewrite Hsame.
      by apply list_elem_of_fmap_2.
Qed.

(** X11: an analyzer that [NewAnalyzer] returns carries the platform client
    and the host it was given; every regular file the walk visited was
    read, and the corpus has at most one entry for each of them, exactly
    one when their keys are distinct. *)
Theorem NewAnalyzer_succeeds disk platform analysseur dir analyzer :
  NewAnalyzer disk platform analysseur dir = inr analyzer →
  exercism analyzer = platform ∧
  analysseurHost analyzer = analysseur ∧
  Forall (readable disk) (file_paths (corpus_root dir) (tree disk)) ∧
  size (comments analyzer)
    ≤ length (file_paths (corpus_root dir) (tree disk)) ∧
  (NoDup (comment_key (corpus_root dir)
            <$> file_paths (corpus_root dir) (tree disk)) →
   size (comments analyzer)
   = length (file_paths (corpus_root dir) (tree disk))).
Proof.
  intros Hrun. pose proof (NewAnalyzer_inr _ _ _ _ _ Hrun) as Heach.
  assert (exercism analyzer = platform ∧
          analysseurHost analyzer = analysseur) as [Hclient Hhost].
  { rewrite NewAnalyzer_call_each in Hrun.
    destruct (call_each _ _ _) as [err|c]; [done|].
    injection Hrun as <-. by split. }
  destruct (call_each_fn_size _ _ _ _ _ Heach) as [Hle Heq].
  rewrite map_size_empty in Hle, Heq.
  split_and!; [done..| |done|].
  - apply (call_each_fn_inr disk (corpus_root dir) _ ∅). by eexists.
  - intros Hnd. apply Heq; [done|]. intros path _. apply lookup_empty.
Qed.

Lemma call_each_fn_last disk root visits acc m before path after b :
  call_each (fn disk root) visits acc = inr m →
  files_of visits = before ++ path :: after →
  (∀ other, other ∈ after →
     comment_key root other ≠ comment_key root path) →
  read disk path = inr b →
  m !! comment_key root path = Some b.
Proof.
  revert acc before. induction visits as [|[p info] rest IH];
    intros acc before; [by destruct before|].
  rewrite files_of_cons. simpl. unfold fn at 1.
  destruct (IsDir info); simpl; [apply IH|].
  destruct (read disk p) as [e|c] eqn:Hread; [done|].
  intros Hrun Hsplit Hafter Hpath.
  destruct before as [|q before]; simplify_eq/=.
  - rewrite (corpus_entry_kept _ _ _ _ _ _ Hrun) by done.
    rewrite lookup_insert_eq. congruence.
  - by eapply IH.
Qed.

(** X12: when several files have the same key, the corpus holds the content of
    the one the walk visits last. *)
Theorem last_file_wins disk platform analysseur dir analyzer
    before path after :
  NewAnalyzer disk platform analysseur dir = inr analyzer →
  file_paths (corpus_root dir) (tree disk) = before ++ path :: after →
  (∀ other, other ∈ after →
     comment_key (corpus_root dir) other
     ≠ comment_key (corpus_root dir) path) →
  ∃ b, read disk path = inr b ∧
    comments analyzer !! comment_key (corpus_root dir) path = Some b.
Proof.
  intros Hrun%NewAnalyzer_inr Hsplit Hafter.
  destruct (corpus_files_read _ _ _ _ _ path Hrun) as [b Hb].
  { fold (file_paths (corpus_root dir) (tree disk)). rewrite Hsplit.
    set_solver. }
  exists b. split; [done|]. by eapply call_each_fn_last.
Qed.

Lemma last_file_wins_witness :
  ∃ b, read Collision.disk "R/analyzer/ruby/x.md" = inr b ∧
    comments Collision.analyzer
      !! comment_key (corpus_root "R") "R/analyzer/ruby/x.md" = Some b.
Proof.
  apply (last_file_wins Collision.disk Sample.platform "http://analysseur"
           "R" Collision.analyzer
           ["R/analyzer/ruby/x"] "R/analyzer/ruby/x.md" []).
  - by vm_compute.
  - by vm_compute.
  - intros other Hin. by apply elem_of_nil in Hin.
Defined.

Lemma TrimLeft_rooted s :
  Filepath.rooted (Strings.TrimLeft s "/") = false.
Proof.
  induction s as [|c s IH]; [done|]. simpl.
  destruct (Ascii.eqb c "/") eqn:Hc; [done|]. simpl.
  unfold Filepath.Separator. by rewrite Hc.
Qed.

(** X13: no key of the corpus starts with a separator. *)
Theorem corpus_keys_not_rooted disk platform analysseur dir analyzer key :
  NewAnalyzer disk platform analysseur dir = inr analyzer →
  is_Some (comments analyzer !! key) →
  Filepath.rooted key = false.
Proof.
  intros Hrun%NewAnalyzer_inr [b Hkey].
  destruct (corpus_entry_origin _ _ _ _ _ _ _ Hrun Hkey)
    as [Hempty|(path & _ & <- & _)];
    [by rewrite lookup_empty in Hempty|].
  apply TrimLeft_rooted.
Qed.

Lemma corpus_keys_not_rooted_witness : Filepath.rooted "typeA/x" = false.
Proof.
  apply (corpus_keys_not_rooted (CorpusSample.disk [x41] [x42])
           Sample.platform "http://analysseur" "R"
           {| exercism := Sample.platform;
              analysseurHost := "http://analysseur";
              comments := CorpusSample.corpus [x41] [x42] |} "typeA/x").
  - by vm_compute.
  - exists [x41]. by vm_compute.
Defined.



(** X15: in a corpus directory without regular files [NewAnalyzer] succeeds
    with the empty corpus, and then no job publishes anything. *)
Theorem empty_corpus_never_publishes disk platform analysseur dir :
  file_paths (corpus_root dir) (tree disk) = [] →
  ∃ analyzer,
    NewAnalyzer disk platform analysseur dir = inr analyzer ∧
    comments analyzer = ∅ ∧
    ∀ w msg, Forall (λ e, is_submit e = false)
               (trace (process analyzer w msg)).
Proof.
  intros Hfiles.
  assert (∃ analyzer,
            NewAnalyzer disk platform analysseur dir = inr analyzer)
    as [analyzer Hrun].
  { rewrite NewAnalyzer_call_each.
    destruct (proj2 (call_each_fn_inr disk (corpus_root dir)
                       (visited (corpus_root dir) (tree disk)) ∅))
      as [c ->]; [|by eexists].
    fold (file_paths (corpus_root dir) (tree disk)). by rewrite Hfiles. }
  assert (comments analyzer = ∅) as Hempty.
  { apply map_eq. intros key. rewrite lookup_empty.
    destruct (comments analyzer !! key) as [b|] eqn:Hkey; [|done].
    destruct (corpus_entry_origin _ _ _ _ _ _ _
                (NewAnalyzer_inr _ _ _ _ _ Hrun) Hkey)
      as [Hnone|(path & Hin & _)];
      [by rewrite lookup_empty in Hnone|].
    fold (file_paths (corpus_root dir) (tree disk)) in Hin.
    rewrite Hfiles in Hin. by apply elem_of_nil in Hin. }
  exists analyzer. split_and!; [done..|].
  intros w msg. apply Forall_forall. intros e He.
  destruct e as [| | |c u]; try done.
  apply submit_in_process in He as (ap & _ & _ & _ & Hc & Hne).
  exfalso. apply Hne. rewrite Hc. unfold select.
  apply first_comment_nil. intros smell _. unfold content.
  by rewrite Hempty, lookup_empty.
Qed.

Lemma empty_corpus_never_publishes_witness :
  ∃ analyzer,
    NewAnalyzer Collision.empty Sample.platform "http://analysseur" "R"
      = inr analyzer ∧
    comments analyzer = ∅ ∧
    ∀ w msg, Forall (λ e, is_submit e = false)
               (trace (process analyzer w msg)).
Proof.
  apply (empty_corpus_never_publishes Collision.empty Sample.platform
           "http://analysseur" "R").
  by vm_compute.
Defined.

(** ** The root of the corpus *)

Lemma corpus_root_render dir :
  dir ≠ "" →
  corpus_root dir
  = Filepath.render (Filepath.rooted dir)
      ("ruby" :: "analyzer" :: Filepath.out_elements dir).
Proof.
  intros Hdir. unfold corpus_root, Filepath.Join.
  destruct (String.eqb_spec dir "") as [|_]; [done|].
  change (Strings.Join [dir; "analyzer"; "ruby"] "/")
    with (dir +:+ String Filepath.Separator "analyzer/ruby").
  unfold Filepath.Clean. case_empty Hnil; [by destruct dir|].
  rewrite rooted_app by done. f_equal.
  unfold Filepath.out_elements.
  by rewrite rooted_app, elements_app, foldl_app by done.
Qed.

Lemma render_track_suffix is_rooted out :
  ∃ prefix,
    Filepath.render is_rooted ("ruby" :: "analyzer" :: out)
    = prefix +:+ "analyzer/ruby".
Proof.
  unfold Filepath.render.
  change (rev ("ruby" :: "analyzer" :: out))
    with ((rev out ++ ["analyzer"]) ++ ["ruby"]).
  destruct (rev out) as [|x xs].
  { destruct is_rooted; [by exists "/"|by exists ""]. }
  rewrite Join_snoc by (by destruct xs).
  rewrite Join_snoc, !append_assoc by done.
  change ("analyzer" +:+ "/" +:+ "ruby") with "analyzer/ruby".
  rewrite <-(append_assoc _ "/" "analyzer/ruby").
  destruct is_rooted.
  - exists ("/" +:+ Strings.Join (x :: xs) "/" +:+ "/").
    by rewrite !append_assoc.
  - exists (Strings.Join (x :: xs) "/" +:+ "/").
    case_empty Hnil; [|done].
    by destruct (Strings.Join (x :: xs) "/").
Qed.

(** X16: whatever directory [NewAnalyzer] is given, the root it walks is a
    cleaned path that ends in [analyzer/ruby], and it is absolute exactly
    when the directory is. *)
Theorem corpus_root_ends_in_track dir :
  (∃ prefix, corpus_root dir = prefix +:+ "analyzer/ruby") ∧
  Filepath.Clean (corpus_root dir) = corpus_root dir ∧
  Filepath.rooted (corpus_root dir) = Filepath.rooted dir.
Proof.
  destruct (String.eqb_spec dir "") as [->|Hdir].
  { split_and!; [by exists ""|done..]. }
  rewrite corpus_root_render by done.
  pose proof (canonical_cons _ _ _ plain_ruby
                (canonical_cons _ _ _ plain_analyzer
                   (canonical_out_elements dir))) as Hcanon.
  split_and!.
  - apply render_track_suffix.
  - by apply Clean_render.
  - by apply rooted_render.
Qed.

(** ** The shuffle stays inside the slice *)

Section CheckedFacts.

Context {A : Type}.
Implicit Types (l : list A) (src : Rand.Source).

Lemma swap_checked_in_range i j l :
  i < length l → j < length l → swap_checked i j l = Some (swap i j l).
Proof.
  intros Hi Hj. unfold swap_checked, swap.
  destruct (lookup_lt_is_Some_2 l i Hi) as [x ->].
  by destruct (lookup_lt_is_Some_2 l j Hj) as [y ->].
Qed.

Lemma shuffle_checked_steps src indices l :
  Forall (λ i, i < length l) indices →
  foldl (λ acc i, acc ≫= swap_checked i (Rand.Intn src i (i + 1)))
    (Some l) indices
  = Some (foldl (shuffle_step src) l indices).
Proof.
  intros Hidx. revert l Hidx.
  induction indices as [|i indices IH]; intros l Hidx; [done|].
  apply Forall_cons in Hidx as [Hi Hidx]. cbn [foldl mbind option_bind].
  rewrite swap_checked_in_range
    by (done || by apply shuffle_draw_in_range).
  apply IH. unfold shuffle_step. by rewrite swap_length.
Qed.

End CheckedFacts.

(** X17: the shuffle never indexes outside the slice, whatever the random
    source hands out, and its outcome is a rearrangement of the input:
    no smell is lost, added or repeated. *)
Theorem shuffle_stays_in_range {A} (src : Rand.Source) (smells : list A) :
  shuffle_checked src smells = Some (shuffle src smells) ∧
  shuffle src smells ≡ₚ smells ∧
  length (shuffle src smells) = length smells.
Proof.
  split_and!; [|apply shuffle_perm|apply shuffle_length].
  apply shuffle_checked_steps, Forall_forall.
  intros i Hi%elem_of_seq. lia.
Qed.

(** ** Every smell has the same chance to be scanned first *)

Lemma filter_ext_in {B} (P Q : B → Prop) `{!∀ x, Decision (P x)}
    `{!∀ x, Decision (Q x)} (l : list B) :
  (∀ x, x ∈ l → P x ↔ Q x) → filter P l = filter Q l.
Proof.
  induction l as [|x l IH]; intros Hext; [done|].
  rewrite !filter_cons, IH by (intros; apply Hext; by right).
  apply decide_ext, Hext. by left.
Qed.

Lemma length_filter_fmap {B C} (P : C → Prop) `{!∀ y, Decision (P y)}
    (f : B → C) (l : list B) :
  length (filter P (f <$> l)) = length (filter (λ x, P (f x)) l).
Proof.
  induction l as [|x l IH]; [done|].
  rewrite fmap_cons, !filter_cons. case_decide; simpl; by rewrite IH.
Qed.

Lemma count_bind {B C} (P : C → Prop) `{!∀ y, Decision (P y)}
    (Q : B → Prop) `{!∀ x, Decision (Q x)} (f : B → list C) (n : nat)
    (L : list B) :
  (∀ x, x ∈ L →
     length (filter P (f x)) = if decide (Q x) then n else 0) →
  length (filter P (L ≫= f)) = n * length (filter Q L).
Proof.
  induction L as [|x L IH]; intros Hcount; [simpl; lia|].
  rewrite bind_cons, filter_app, length_app, IH, Hcount, filter_cons
    by (by left || (intros; apply Hcount; by right)).
  case_decide; simpl; lia.
Qed.

Lemma count_zero_in_seq n :
  length (filter (λ j, j = 0) (seq 0 (S n))) = 1.
Proof.
  change (seq 0 (S n)) with (0 :: seq 1 n).
  rewrite filter_cons_True, filter_none; [done| |done].
  apply Forall_forall. intros j Hj%elem_of_seq. lia.
Qed.

Lemma filter_all {B} (P : B → Prop) `{!∀ x, Decision (P x)} (l : list B) :
  Forall P l → filter P l = l.
Proof.
  induction 1 as [|x l Hx _ IH]; [done|].
  by rewrite filter_cons_True, IH.
Qed.

Lemma count_nonzero_in_seq n :
  length (filter (λ j, j ≠ 0) (seq 0 (S n))) = n.
Proof.
  change (seq 0 (S n)) with (0 :: seq 1 n).
  rewrite filter_cons_False by (by intros ?).
  rewrite filter_all; [apply length_seq|].
  apply Forall_forall. intros j Hj%elem_of_seq. lia.
Qed.

Section FirstPlace.

Context {A : Type} `{!EqDecision A}.
Implicit Types (l : list A) (s x : A) (d : list nat).

Global Instance comes_first_dec s l d : Decision (comes_first s l d).
Proof. unfold comes_first. apply _. Defined.

(** The front of the slice after the last iteration: the new element when
    the draw is 0, the front of the shuffled prefix otherwise. *)
Lemma front_after_last_step l x d j :
  length d = length l → j ≤ length l →
  head (shuffle (source_of (d ++ [j])) (l ++ [x]))
  = if decide (j = 0) then Some x else head (shuffle (source_of d) l).
Proof.
  intros Hd Hj. rewrite shuffle_draws_snoc by done.
  pose proof (shuffle_length (source_of d) l) as Hlen.
  remember (shuffle (source_of d) l) as p eqn:Hp.
  rewrite !head_lookup, swap_lookup
    by (rewrite length_app; simpl; lia).
  unfold swapped. destruct (decide (j = 0)) as [->|Hj0].
  - rewrite decide_True by done.
    by rewrite lookup_app_r, Hlen, Nat.sub_diag by lia.
  - rewrite decide_False by done.
    rewrite decide_False by lia.
    apply lookup_app_l. lia.
Qed.

Lemma comes_first_count l s :
  NoDup l → s ∈ l →
  length (filter (comes_first s l) (all_draws (length l)))
  = fact (length l - 1).
Proof.
  revert s. induction l as [|x l IH] using rev_ind; intros s Hnd Hs.
  { by apply elem_of_nil in Hs. }
  apply NoDup_app in Hnd as (Hnd & Hx & _).
  assert (x ∉ l) as Hxl by (intros ?; eapply Hx; [done|by left]).
  rewrite length_app. cbn [length].
  replace (length l + 1) with (S (length l)) by lia.
  replace (S (length l) - 1) with (length l) by lia.
  rewrite all_draws_S.
  assert (∀ d j, d ∈ all_draws (length l) → j ∈ seq 0 (S (length l)) →
            comes_first s (l ++ [x]) (d ++ [j]) ↔
            (if decide (j = 0) then Some x
             else head (shuffle (source_of d) l)) = Some s) as Hfirst.
  { intros d j [Hd _]%elem_of_all_draws Hj%elem_of_seq.
    unfold comes_first. by rewrite front_after_last_step by (done || lia). }
  assert (∀ d, head (shuffle (source_of d) l) ≠ Some x) as Hnotx.
  { intros d Hhead%head_Some_elem_of. by rewrite elem_of_shuffle in Hhead. }
  destruct (decide (s = x)) as [->|Hsx].
  - rewrite (count_bind _ (λ _, True) _ 1).
    + rewrite filter_all by (by apply Forall_forall).
      rewrite all_draws_length. lia.
    + intros d Hd. rewrite decide_True by done.
      rewrite length_filter_fmap, (filter_ext_in _ (λ j, j = 0)).
      * apply count_zero_in_seq.
      * intros j Hj. rewrite (Hfirst d j Hd Hj).
        case_decide; [done|]. split; [by intros ?%Hnotx|done].
  - assert (s ∈ l) as Hsl.
    { apply elem_of_app in Hs as [?|Hs]; [done|].
      by apply list_elem_of_singleton in Hs. }
    rewrite (count_bind _ (comes_first s l) _ (length l)).
    + rewrite IH by done.
      destruct l as [|y l]; [by apply elem_of_nil in Hsl|].
      cbn [length]. replace (S (length l) - 1) with (length l) by lia.
      rewrite Nat.mul_comm. cbn [fact]. lia.
    + intros d Hd. rewrite length_filter_fmap.
      destruct (decide (comes_first s l d)) as [Hd1|Hd1].
      * rewrite (filter_ext_in _ (λ j, j ≠ 0)).
        -- apply count_nonzero_in_seq.
        -- intros j Hj. rewrite (Hfirst d j Hd Hj).
           case_decide; [|done]. split; [congruence|done].
      * rewrite filter_none; [done|].
        apply Forall_forall. intros j Hj.
        rewrite (Hfirst d j Hd Hj).
        case_decide; [congruence|done].
Qed.

End FirstPlace.

(** X18: when the detected smells are distinct and each has a comment, every
    smell has the same chance to be the one commented on: of the [n!]
    equally likely sequences of draws, exactly [(n-1)!] bring a given
    smell to the front of the shuffled sequence, and its comment is then
    the one selected. *)
Theorem each_smell_equally_likely (comments : gmap string (list byte))
    (smells : list string) (smell : string) :
  NoDup smells → smell ∈ smells →
  (∀ other, other ∈ smells → content comments other ≠ []) →
  length (filter (comes_first smell smells) (all_draws (length smells)))
    = fact (length smells - 1) ∧
  length (all_draws (length smells)) = fact (length smells) ∧
  ∀ d, comes_first smell smells d →
    first_comment comments (shuffle (source_of d) smells)
    = content comments smell.
Proof.
  intros Hnd Hin Hfull. split_and!.
  - by apply comes_first_count.
  - apply all_draws_length.
  - intros d Hfirst. unfold comes_first in Hfirst.
    destruct (shuffle (source_of d) smells) as [|s rest]; simplify_eq/=.
    fold (content comments smell).
    specialize (Hfull smell Hin).
    by destruct (content comments smell).
Qed.

Lemma each_smell_equally_likely_witness :
  length (filter (comes_first "smell/b" Chances.smells) (all_draws 3)) = 2.
Proof.
  apply (each_smell_equally_likely Chances.corpus Chances.smells "smell/b").
  - compute_done.
  - compute_done.
  - intros other Hin. unfold Chances.smells in Hin.
    repeat (apply elem_of_cons in Hin as [->|Hin]; [by vm_compute|]).
    by apply elem_of_nil in Hin.
Defined.

Lemma NewAnalyzer_first_read_error_witness :
  ∃ before path after,
    file_paths (corpus_root "R") (tree Collision.unreadable)
      = before ++ path :: after ∧
    read Collision.unreadable path = inl "permission denied" ∧
    Forall (readable Collision.unreadable) before.
Proof.
  apply (NewAnalyzer_first_read_error Collision.unreadable Sample.platform
           "http://analysseur" "R" "permission denied").
  by vm_compute.
Defined.

Lemma NewAnalyzer_succeeds_witness :
  exercism Collision.analyzer = Sample.platform ∧
  analysseurHost Collision.analyzer = "http://analysseur" ∧
  Forall (readable Collision.disk)
    (file_paths (corpus_root "R") (tree Collision.disk)) ∧
  size (comments Collision.analyzer)
    ≤ length (file_paths (corpus_root "R") (tree Collision.disk)) ∧
  (NoDup (comment_key (corpus_root "R")
            <$> file_paths (corpus_root "R") (tree Collision.disk)) →
   size (comments Collision.analyzer)
   = length (file_paths (corpus_root "R") (tree Collision.disk))).
Proof.
  apply (NewAnalyzer_succeeds Collision.disk Sample.platform
           "http://analysseur" "R" Collision.analyzer).
  by vm_compute.
Defined.
